(** * Caption timeline and synchronized render engine of [App.tsx]

    A shallow embedding of the algorithmic kernel of [src/App.tsx]:
    - [Segmenter]: [splitText], the closure of [getTimedCaptions] that cuts a
      script section into caption chunks;
    - [Mapper]: [mapToTimed] and [getTimedCaptions];
    - [Selector]: the caption and image-index selection at the head of
      [render];
    - [Capture]: [exportVideo] with the React state, the audio element and the
      media recorders it drives;
    - [Retry]: [callWithRetry];
    - [Assets]: the asset list as [startAssetGeneration] builds it and as
      [handleBgmUpload], [regenerateAudio] and [regenerateSingleImage]
      update it;
    - [Wrap]: the caption word wrap of [render].

    Conventions.  A JavaScript string is the list of its UTF-16 code units
    ([N]); [length] is JavaScript's [.length].  A JavaScript number that
    carries a time is an exact rational ([Q]): the rounding of binary64 is
    not modelled, and a division whose divisor is zero (JavaScript: [NaN] or
    an infinity) is reported as [None] by [jsdiv]. *)

From Stdlib Require Import String Ascii.
From Stdlib Require Import List Bool Arith ZArith NArith QArith Qround Lia Lqa.
From Stdlib Require DecimalNat.
Import ListNotations.

Set Implicit Arguments.

(* ================================================================== *)
(** * JavaScript strings *)

Module JS.

Definition char16 := N.
Definition jsstring := list char16.

(** ASCII literals as code-unit lists, for the examples. *)
Fixpoint lit (s : string) : jsstring :=
  match s with
  | EmptyString => []
  | String a r => N_of_ascii a :: lit r
  end.

(** [WhiteSpace] and [LineTerminator] of ECMAScript: the characters matched
    by [\s] and removed by [String.prototype.trim]. *)
Definition is_space (c : char16) : bool :=
  ((9 <=? c) && (c <=? 13) || (c =? 32) || (c =? 160) || (c =? 5760)
   || (8192 <=? c) && (c <=? 8202)
   || (c =? 8232) || (c =? 8233) || (c =? 8239) || (c =? 8287)
   || (c =? 12288) || (c =? 65279))%N.

(** The class [[.!?]]. *)
Definition is_term (c : char16) : bool :=
  ((c =? 46) || (c =? 33) || (c =? 63))%N.

(** The class [[,]]. *)
Definition is_comma (c : char16) : bool := (c =? 44)%N.

Definition period : char16 := 46%N.

Definition is_empty (s : jsstring) : bool :=
  match s with [] => true | _ :: _ => false end.

(** [s.trim()]. *)
Fixpoint trimStart (s : jsstring) : jsstring :=
  match s with
  | [] => []
  | c :: r => if is_space c then trimStart r else s
  end.

Fixpoint trimEnd (s : jsstring) : jsstring :=
  match s with
  | [] => []
  | c :: r =>
      match trimEnd r with
      | [] => if is_space c then [] else [c]
      | r' => c :: r'
      end
  end.

Definition trim (s : jsstring) : jsstring := trimEnd (trimStart s).

Definition starts_with_space (s : jsstring) : bool :=
  match s with [] => false | c :: _ => is_space c end.

(** [s.split(/D\s+/)] and [s.split(/(D)\s+/)] for a one-character class [D].
    A match starts at the leftmost [D] that is followed by white space and
    takes all the white space after it ([\s+] is greedy).  The text before the
    match closes the current piece; with a capture group ([capture = true])
    the delimiter character follows it as a piece of its own.  [skipping] is
    true while the white space of the match is being consumed.  The result is
    never empty: the last piece is the text after the last match. *)
Fixpoint split_go (delim : char16 -> bool) (capture : bool)
                  (skipping : bool) (s : jsstring) : list jsstring :=
  match s with
  | [] => [[]]
  | c :: r =>
      if skipping && is_space c then split_go delim capture true r
      else if delim c && starts_with_space r then
        [] :: (if capture then [[c]] else []) ++ split_go delim capture true r
      else
        match split_go delim capture false r with
        | p :: ps => (c :: p) :: ps
        | [] => [[c]]
        end
  end.

Definition split (delim : char16 -> bool) (capture : bool) (s : jsstring)
  : list jsstring :=
  split_go delim capture false s.

(** [/[.!?]$/.test(s)]. *)
Definition ends_with_term (s : jsstring) : bool :=
  match rev s with
  | [] => false
  | c :: _ => is_term c
  end.

End JS.

Import JS.

(* ================================================================== *)
(** * Segmenter: [splitText] *)

Module Segmenter.

Definition MAX_CHARS : nat := 24.

(** [text.split(/[.!?]\s+/).filter(s => s.trim().length > 0)
        .map(s => s.trim() + (/[.!?]$/.test(s) ? '' : '.'))] *)
Definition sentences (text : jsstring) : list jsstring :=
  map (fun s => trim s ++ (if ends_with_term s then [] else [period]))
      (filter (fun s => 0 <? length (trim s))
              (split is_term false text)).

(** [s.split(/([,])\s+/).filter(Boolean)] *)
Definition commaParts (s : jsstring) : list jsstring :=
  filter (fun p => negb (is_empty p)) (split is_comma true s).

(** The [parts.forEach] loop together with the final
    [if (currentChunk) chunks.push(...)]: [cur] is [currentChunk], the result
    is the list of chunks pushed, in order.  [post] is what is applied to the
    buffer when it is pushed: [trim] in the source. *)
Fixpoint accumulate (post : jsstring -> jsstring) (cur : jsstring)
                    (parts : list jsstring) : list jsstring :=
  match parts with
  | [] => if is_empty cur then [] else [post cur]
  | p :: ps =>
      if (MAX_CHARS <? length (cur ++ p)) && negb (is_empty cur)
      then post cur :: accumulate post p ps
      else accumulate post (cur ++ p) ps
  end.

(** The body of [sentences.forEach]: the chunks pushed for one sentence. *)
Definition chunkSentence (s : jsstring) : list jsstring :=
  if length s <=? MAX_CHARS then [s]
  else accumulate trim [] (commaParts s).

(** The buffers that the comma branch flushes, before [trim]. *)
Definition flushedBuffers (s : jsstring) : list jsstring :=
  accumulate (fun b => b) [] (commaParts s).

Definition splitText (text : jsstring) : list jsstring :=
  flat_map chunkSentence (sentences text).

End Segmenter.

Import Segmenter.

(* ================================================================== *)
(** * Data model ([types.ts], [TimedCaption]) *)

Inductive Section := Hook | Body | Outro.

Definition Section_eqb (a b : Section) : bool :=
  match a, b with
  | Hook, Hook | Body, Body | Outro, Outro => true
  | _, _ => false
  end.

Record TimedCaption := mkCaption {
  text : jsstring;
  startTime : Q;
  endTime : Q;
  section : Section
}.

Record ScriptContent := mkScript {
  hook : jsstring;
  body : jsstring;
  outro : jsstring
}.

(** Division of JavaScript numbers; [None] stands for the [NaN] or infinity
    that a zero divisor produces. *)
Definition jsdiv (a b : Q) : option Q :=
  if Qeq_bool b 0 then None else Some (a / b).

(** [x || y] on numbers: [y] when [x] is [undefined] or zero. *)
Definition num_or (x : option Q) (y : Q) : Q :=
  match x with
  | Some q => if Qeq_bool q 0 then y else q
  | None => y
  end.

Notation "x <- e ;; k" := (match e with Some x => k | None => None end)
  (at level 61, e at next level, right associativity).

(* ================================================================== *)
(** * Timeline mapper: [getTimedCaptions] *)

Module Mapper.

(** The variables that [mapToTimed] closes over and updates. *)
Record MapperState := mkState {
  accumulatedChars : Z;
  captions : list TimedCaption
}.

Fixpoint mapToTimed (totalChars : Z) (duration : Q) (chunks : list jsstring)
                    (sec : Section) (st : MapperState) : option MapperState :=
  match chunks with
  | [] => Some st
  | txt :: rest =>
      q0 <- jsdiv (inject_Z (accumulatedChars st)) (inject_Z totalChars) ;;
      let start := q0 * duration in
      let acc := (accumulatedChars st + Z.of_nat (length txt))%Z in
      q1 <- jsdiv (inject_Z acc) (inject_Z totalChars) ;;
      let end_ := q1 * duration in
      mapToTimed totalChars duration rest sec
        (mkState acc (captions st ++ [mkCaption txt start end_ sec]))
  end.

Definition totalCharsOf (script : ScriptContent) : Z :=
  Z.of_nat (length (concat (splitText (hook script))
                    ++ concat (splitText (body script))
                    ++ concat (splitText (outro script)))).

Definition getTimedCaptions (script : ScriptContent) (duration : Q)
  : option (list TimedCaption) :=
  let hookChunks := splitText (hook script) in
  let bodyChunks := splitText (body script) in
  let outroChunks := splitText (outro script) in
  let totalChars := totalCharsOf script in
  st1 <- mapToTimed totalChars duration hookChunks Hook (mkState 0 []) ;;
  st2 <- mapToTimed totalChars duration bodyChunks Body st1 ;;
  st3 <- mapToTimed totalChars duration outroChunks Outro st2 ;;
  Some (captions st3).

End Mapper.

Import Mapper.

(* ================================================================== *)
(** * Scene selector: the head of [render] *)

Module Selector.

Definition last_opt (A : Type) (l : list A) : option A :=
  match rev l with
  | [] => None
  | x :: _ => Some x
  end.

(** [allCaptions.find(s => time >= s.startTime && time < s.endTime)
      || allCaptions[allCaptions.length - 1]] *)
Definition selectCaption (allCaptions : list TimedCaption) (time : Q)
  : option TimedCaption :=
  match find (fun s => Qle_bool (startTime s) time
                       && negb (Qle_bool (endTime s) time)) allCaptions with
  | Some c => Some c
  | None => last_opt allCaptions
  end.

Definition is_body (s : TimedCaption) : bool := Section_eqb (section s) Body.

(** [allCaptions.find(s => s.section === 'body')?.startTime || 0] *)
Definition bodyS (allCaptions : list TimedCaption) : Q :=
  num_or (option_map startTime (find is_body allCaptions)) 0.

(** [[...allCaptions].reverse().find(s => s.section === 'body')?.endTime
      || duration] *)
Definition bodyE (allCaptions : list TimedCaption) (duration : Q) : Q :=
  num_or (option_map endTime (find is_body (rev allCaptions))) duration.

(** The progress of the [else] branch:
    [(time - bodyS) / (bodyE - bodyS || 1)]. *)
Definition prog (allCaptions : list TimedCaption) (duration time : Q) : Q :=
  (time - bodyS allCaptions)
  / num_or (Some (bodyE allCaptions duration - bodyS allCaptions)) 1.

(** [currentImgIdx] for [images.length = imagesLength]. *)
Definition selectImageIndex (allCaptions : list TimedCaption)
    (duration time : Q) (imagesLength : Z) : Z :=
  match option_map section (selectCaption allCaptions time) with
  | Some Hook => 0
  | Some Outro => imagesLength - 1
  | _ =>
      let bCount := (imagesLength - 2)%Z in
      1 + Z.min (Qfloor (prog allCaptions duration time * inject_Z bCount))
                (bCount - 1)
  end.

(** The [else] branch is taken: the selected caption is tagged [body], or
    there is no caption at all. *)
Definition in_body_branch (allCaptions : list TimedCaption) (time : Q) : Prop :=
  match option_map section (selectCaption allCaptions time) with
  | Some Hook | Some Outro => False
  | _ => True
  end.

(** [audio?.duration || 10] *)
Definition effectiveDuration (audioDuration : option Q) : Q :=
  num_or audioDuration 10.

End Selector.

Import Selector.

(* ================================================================== *)
(** * Capture pipeline: [exportVideo] *)

Module Capture.

(** [MediaRecorder.state]; the recorders are never paused. *)
Inductive RecorderState := Inactive | Recording.

Definition RecorderState_eqb (a b : RecorderState) : bool :=
  match a, b with
  | Inactive, Inactive | Recording, Recording => true
  | _, _ => false
  end.

(** The narration [<audio>] element.  [onended] is the handler installed by
    [exportVideo], identified by the recorder it stops. *)
Record Audio := mkAudio {
  currentTime : Q;
  paused : bool;
  onended : option nat
}.

(** What the component and the browser hold between two events: the React
    state as the last render saw it, the two refs, every [MediaRecorder]
    created so far (a recorder is named by its position), the pending
    [setTimeout] callbacks and the ['stop'] events not yet delivered. *)
Record World := mkWorld {
  isExporting : bool;
  isPlaying : bool;
  canvas : bool;
  audio : option Audio;
  recorders : list RecorderState;
  timers : list nat;
  stopEvents : list nat
}.

(** State updates queued by the setters during one handler; React applies
    them when the handler has returned. *)
Record Pending := mkPending {
  nextExporting : option bool;
  nextPlaying : option bool
}.

Definition noPending : Pending := mkPending None None.

(** The primitive effects of the handlers. *)
Inductive Cmd :=
| SetIsExporting (b : bool)
| SetIsPlaying (b : bool)
| NewRecorder
| RecorderStart (r : nat)
| RecorderStop (r : nat)
| AudioSetCurrentTime (t : Q)
| AudioSetOnended (h : option nat)
| SetTimeoutStop (r : nat) (ms : Z).

Fixpoint set_nth (A : Type) (n : nat) (x : A) (l : list A) : list A :=
  match l, n with
  | [], _ => []
  | _ :: r, O => x :: r
  | y :: r, S m => y :: set_nth m x r
  end.

Definition recorderState (w : World) (r : nat) : RecorderState :=
  nth r (recorders w) Inactive.

Definition withAudio (f : Audio -> Audio) (w : World) : World :=
  mkWorld (isExporting w) (isPlaying w) (canvas w) (option_map f (audio w))
          (recorders w) (timers w) (stopEvents w).

Definition withRecorders (rs : list RecorderState) (w : World) : World :=
  mkWorld (isExporting w) (isPlaying w) (canvas w) (audio w)
          rs (timers w) (stopEvents w).

Definition exec (c : Cmd) (s : World * Pending) : World * Pending :=
  let (w, p) := s in
  match c with
  | SetIsExporting b => (w, mkPending (Some b) (nextPlaying p))
  | SetIsPlaying b => (w, mkPending (nextExporting p) (Some b))
  | NewRecorder => (withRecorders (recorders w ++ [Inactive]) w, p)
  | RecorderStart r => (withRecorders (set_nth r Recording (recorders w)) w, p)
  | RecorderStop r =>
      match recorderState w r with
      | Recording =>
          (mkWorld (isExporting w) (isPlaying w) (canvas w) (audio w)
                   (set_nth r Inactive (recorders w)) (timers w)
                   (stopEvents w ++ [r]), p)
      | Inactive => (w, p)
      end
  | AudioSetCurrentTime t =>
      (withAudio (fun a => mkAudio t (paused a) (onended a)) w, p)
  | AudioSetOnended h =>
      (withAudio (fun a => mkAudio (currentTime a) (paused a) h) w, p)
  | SetTimeoutStop r _ =>
      (mkWorld (isExporting w) (isPlaying w) (canvas w) (audio w)
               (recorders w) (timers w ++ [r]) (stopEvents w), p)
  end.

Definition run (cs : list Cmd) (s : World * Pending) : World * Pending :=
  fold_left (fun s c => exec c s) cs s.

(** The render that follows a handler: the queued updates become the state,
    and when [isPlaying] changed the effect of [useEffect] plays or pauses
    the audio element (the effect returns at once without a canvas). *)
Definition commit (s : World * Pending) : World :=
  let (w, p) := s in
  let exporting := match nextExporting p with Some b => b | None => isExporting w end in
  let playing := match nextPlaying p with Some b => b | None => isPlaying w end in
  let a :=
    if canvas w && negb (Bool.eqb playing (isPlaying w))
    then option_map (fun a => mkAudio (currentTime a) (negb playing) (onended a)) (audio w)
    else audio w in
  mkWorld exporting playing (canvas w) a (recorders w) (timers w) (stopEvents w).

(** [exportVideo]: the effects it performs, in program order, for the
    closure values and refs of [w]. *)
Definition exportVideo (w : World) : list Cmd :=
  if negb (canvas w) || isExporting w then []
  else
    let recorder := length (recorders w) in
    [SetIsExporting true; SetIsPlaying false; NewRecorder; RecorderStart recorder]
    ++ match audio w with
       | Some _ =>
           [AudioSetCurrentTime 0; SetIsPlaying true; AudioSetOnended (Some recorder)]
       | None => [SetTimeoutStop recorder 5000]
       end.

(** [audio.onended] as installed by [exportVideo]. *)
Definition onendedHandler (recorder : nat) : list Cmd :=
  [RecorderStop recorder; SetIsPlaying false; AudioSetOnended None].

(** [recorder.onstop]: the download, then [setIsExporting(false)]. *)
Definition onstopHandler : list Cmd := [SetIsExporting false].

Definition handleTogglePlay (w : World) : list Cmd :=
  [SetIsPlaying (negb (isPlaying w))].

Inductive Event :=
| ClickExport
| ClickTogglePlay
| AudioEnded              (* the ['ended'] event of the narration element *)
| TimerFires (r : nat)    (* a [setTimeout] callback runs *)
| RecorderStopped (r : nat). (* the ['stop'] event of a recorder *)

Definition remove_nat (r : nat) (l : list nat) : list nat :=
  remove Nat.eq_dec r l.

Definition mem_nat (r : nat) (l : list nat) : bool :=
  existsb (Nat.eqb r) l.

(** One event: its handlers run, then React commits.  The ['ended'] event
    reaches both the [onEnded] prop of the element
    ([() => setIsPlaying(false)]) and the [onended] property. *)
Definition handle (e : Event) (w : World) : World :=
  match e with
  | ClickExport => commit (run (exportVideo w) (w, noPending))
  | ClickTogglePlay =>
      if canvas w then commit (run (handleTogglePlay w) (w, noPending)) else w
  | AudioEnded =>
      match audio w with
      | Some a =>
          commit (run ([SetIsPlaying false]
                       ++ match onended a with
                          | Some r => onendedHandler r
                          | None => []
                          end) (w, noPending))
      | None => w
      end
  | TimerFires r =>
      if mem_nat r (timers w) then
        commit (run [RecorderStop r]
                    (mkWorld (isExporting w) (isPlaying w) (canvas w) (audio w)
                             (recorders w) (remove_nat r (timers w))
                             (stopEvents w), noPending))
      else w
  | RecorderStopped r =>
      if mem_nat r (stopEvents w) then
        commit (run onstopHandler
                    (mkWorld (isExporting w) (isPlaying w) (canvas w) (audio w)
                             (recorders w) (timers w)
                             (remove_nat r (stopEvents w)), noPending))
      else w
  end.

(** A session starts with nothing exported, nothing playing and no handler
    installed. *)
Definition initial (w : World) : Prop :=
  isExporting w = false /\ isPlaying w = false /\ recorders w = []
  /\ timers w = [] /\ stopEvents w = []
  /\ match audio w with Some a => onended a = None | None => True end.

Inductive reachable : World -> Prop :=
| reach_init : forall w, initial w -> reachable w
| reach_step : forall w e, reachable w -> reachable (handle e w).

(** Captures in flight. *)
Definition active (w : World) : nat :=
  length (filter (RecorderState_eqb Recording) (recorders w)).

End Capture.

(* ================================================================== *)
(** * Resilience wrapper: [callWithRetry] *)

Module Retry.

(** A rejection as [callWithRetry] reads it: [err.message] and
    [err.status] (a numeric status, when there is one). *)
Record JsError := mkError {
  message : option jsstring;
  status : option Z
}.

Inductive Outcome (V : Type) :=
| Resolved (v : V)
| Rejected (err : JsError).

Arguments Resolved {V} v.
Arguments Rejected {V} err.

Fixpoint startsWith (s p : jsstring) : bool :=
  match p, s with
  | [], _ => true
  | _ :: _, [] => false
  | a :: p', b :: s' => (a =? b)%N && startsWith s' p'
  end.

(** [s.includes(needle)]. *)
Fixpoint includes (s needle : jsstring) : bool :=
  startsWith s needle
  || match s with
     | [] => false
     | _ :: r => includes r needle
     end.

(** [err.message || ""]. *)
Definition msgOf (err : JsError) : jsstring :=
  match message err with
  | Some m => m
  | None => []
  end.

(** [msg.includes("Requested entity was not found")]. *)
Definition isKeyError (err : JsError) : bool :=
  includes (msgOf err) (lit "Requested entity was not found").

(** [msg.includes('429') || err.status === 429]. *)
Definition isRateLimit (err : JsError) : bool :=
  includes (msgOf err) (lit "429")
  || match status err with
     | Some s => (s =? 429)%Z
     | None => false
     end.

(** What is thrown: the fresh key error, or [err] / [lastError] (which is
    [undefined] when no attempt was made). *)
Inductive Thrown :=
| KeyInvalid
| Raised (e : option JsError).

Inductive Completion (V : Type) :=
| Return (v : V)
| Throw (t : Thrown).

Arguments Return {V} v.
Arguments Throw {V} t.

(** One run: how it completes, how often [fn] was invoked, the delays slept
    in order (milliseconds), and whether [setHasKey(false)] was called. *)
Record Run (V : Type) := mkRun {
  completion : Completion V;
  calls : nat;
  delays : list Q;
  keyCleared : bool
}.

Section Loop.

Variable V : Type.
(** The outcome of the [i]-th invocation of [fn] and the value of the [i]-th
    [Math.random()]. *)
Variable fn : nat -> Outcome V.
Variable random : nat -> Q.

(** [Math.pow(2, i) * 1500 + Math.random() * 1000]. *)
Definition delayAt (i : nat) : Q :=
  inject_Z (2 ^ Z.of_nat i) * 1500 + random i * 1000.

(** The [for] loop from iteration [i] with [remaining] iterations left. *)
Fixpoint loop (remaining i : nat) (lastError : option JsError) : Run V :=
  match remaining with
  | O => mkRun (Throw (Raised lastError)) 0 [] false
  | S k =>
      match fn i with
      | Resolved v => mkRun (Return v) 1 [] false
      | Rejected err =>
          if isKeyError err then mkRun (Throw KeyInvalid) 1 [] true
          else if isRateLimit err then
            let r := loop k (S i) (Some err) in
            mkRun (completion r) (S (calls r)) (delayAt i :: delays r)
                  (keyCleared r)
          else mkRun (Throw (Raised (Some err))) 1 [] false
      end
  end.

Definition callWithRetry (maxRetries : nat) : Run V :=
  loop maxRetries 0 None.

End Loop.

End Retry.

(* ================================================================== *)
(** * The asset list: generation, upload and regeneration *)

Module Assets.

Inductive AssetType := image | audio | bgm | video.

Definition AssetType_eqb (a b : AssetType) : bool :=
  match a, b with
  | image, image | audio, audio | bgm, bgm | video, video => true
  | _, _ => false
  end.

(** [AssetData] of [types.ts]; a [Blob] is named by a number. *)
Record AssetData := mkAsset {
  type : AssetType;
  name : jsstring;
  data : jsstring;
  blob : option nat
}.

Fixpoint str_eqb (a b : jsstring) : bool :=
  match a, b with
  | [], [] => true
  | x :: a', y :: b' => (x =? y)%N && str_eqb a' b'
  | _, _ => false
  end.

(** The decimal digits of a number, as a template literal prints them. *)
Fixpoint digits (d : Decimal.uint) : jsstring :=
  match d with
  | Decimal.Nil => []
  | Decimal.D0 r => 48%N :: digits r
  | Decimal.D1 r => 49%N :: digits r
  | Decimal.D2 r => 50%N :: digits r
  | Decimal.D3 r => 51%N :: digits r
  | Decimal.D4 r => 52%N :: digits r
  | Decimal.D5 r => 53%N :: digits r
  | Decimal.D6 r => 54%N :: digits r
  | Decimal.D7 r => 55%N :: digits r
  | Decimal.D8 r => 56%N :: digits r
  | Decimal.D9 r => 57%N :: digits r
  end.

Definition decimal (n : nat) : jsstring := digits (Nat.to_uint n).

(** [`image_${index + 1}.png`]. *)
Definition imageName (index : nat) : jsstring :=
  lit "image_" ++ decimal (index + 1) ++ lit ".png".

(** [assets.filter(a => a.type === 'image')] of the render effect. *)
Definition images (assets : list AssetData) : list AssetData :=
  filter (fun a => AssetType_eqb (type a) image) assets.

(** The image loop of [startAssetGeneration]: [parts] holds, for each prompt
    from index [i] on, the object URL and blob of the part with inline data,
    or [None] when the response has none. *)
Fixpoint pushImages (i : nat) (parts : list (option (jsstring * nat)))
                    (generatedAssets : list AssetData) : list AssetData :=
  match parts with
  | [] => generatedAssets
  | part :: rest =>
      pushImages (S i) rest
        (match part with
         | Some (url, b) =>
             generatedAssets ++ [mkAsset image (imageName i) url (Some b)]
         | None => generatedAssets
         end)
  end.

(** [generatedAssets] as [startAssetGeneration] hands it to [setAssets]. *)
Definition generatedAssets (parts : list (option (jsstring * nat)))
                           (audioData : option (jsstring * nat))
  : list AssetData :=
  let g := pushImages 0 parts [] in
  match audioData with
  | Some (url, b) => g ++ [mkAsset audio (lit "narration.wav") url (Some b)]
  | None => g
  end.

(** The updater of [handleBgmUpload]. *)
Definition handleBgmUpload (url : jsstring) (file : nat)
                           (prev : list AssetData) : list AssetData :=
  filter (fun a => negb (AssetType_eqb (type a) bgm)) prev
  ++ [mkAsset bgm (lit "uploaded_bgm.mp3") url (Some file)].

(** The updater of [regenerateAudio]. *)
Definition regenerateAudio (url : jsstring) (b : nat)
                           (prev : list AssetData) : list AssetData :=
  filter (fun a => negb (AssetType_eqb (type a) audio)) prev
  ++ [mkAsset audio (lit "narration.wav") url (Some b)].

(** [findIndex]; [None] is [-1]. *)
Fixpoint findIndex (A : Type) (p : A -> bool) (l : list A) : option nat :=
  match l with
  | [] => None
  | x :: r => if p x then Some O else option_map S (findIndex p r)
  end.

(** The updater of [regenerateSingleImage]. *)
Definition regenerateSingleImage (index : nat) (url : jsstring) (b : nat)
                                 (prev : list AssetData) : list AssetData :=
  let item := mkAsset image (imageName index) url (Some b) in
  match findIndex (fun a => str_eqb (name a) (imageName index)) prev with
  | Some idx => Capture.set_nth idx item prev
  | None => prev ++ [item]
  end.

End Assets.

(* ================================================================== *)
(** * Compositor: the caption word wrap of [render] *)

Module Wrap.

(** [text.split(' ')]. *)
Fixpoint splitSpace (s : jsstring) : list jsstring :=
  match s with
  | [] => [[]]
  | c :: r =>
      if (c =? 32)%N then [] :: splitSpace r
      else match splitSpace r with
           | p :: ps => (c :: p) :: ps
           | [] => [[c]]
           end
  end.

Section Lines.

(** [ctx.measureText(s).width] for the font in use, and [w * 0.85]. *)
Variable measure : jsstring -> Q.
Variable maxWidth : Q.

(** The [for] loop over [words[1..]] and the final [lines.push]. *)
Fixpoint wrapFrom (currentLine : jsstring) (words : list jsstring)
  : list jsstring :=
  match words with
  | [] => [currentLine]
  | w :: rest =>
      if negb (Qle_bool maxWidth (measure (currentLine ++ [32%N] ++ w)))
      then wrapFrom (currentLine ++ [32%N] ++ w) rest
      else currentLine :: wrapFrom w rest
  end.

(** [lines]; [split] never returns an empty array, so [words[0]] exists. *)
Definition wrapLines (text : jsstring) : list jsstring :=
  match splitSpace text with
  | w0 :: rest => wrapFrom w0 rest
  | [] => []
  end.


End Lines.

End Wrap.

Import Capture.

(* ================================================================== *)
(** * Vocabulary of the properties *)

(** No white space at either end. *)
Definition no_edge_space (s : jsstring) : Prop :=
  starts_with_space s = false /\ starts_with_space (rev s) = false.

(** A buffer or part that [trim] cannot empty. *)
Definition solid (p : jsstring) : Prop :=
  p <> [] /\ starts_with_space p = false.

(** A chunk as the segmenter is meant to emit it. *)
Definition clean (c : jsstring) : Prop := c <> [] /\ no_edge_space c.

Definition blank (s : jsstring) : Prop := forallb is_space s = true.

(** A string with its white space removed. *)
Definition strip_ws (s : jsstring) : jsstring :=
  filter (fun c => negb (is_space c)) s.

(** A string with its white space and its sentence terminators removed. *)
Definition core (s : jsstring) : jsstring :=
  filter (fun c => negb (is_space c) && negb (is_term c)) s.

(** The caption texts of one section, concatenated in order. *)
Definition sectionText (sec : Section) (caps : list TimedCaption) : jsstring :=
  concat (map text (filter (fun c => Section_eqb (section c) sec) caps)).

Definition sectionOf (sec : Section) (script : ScriptContent) : jsstring :=
  match sec with
  | Hook => hook script
  | Body => body script
  | Outro => outro script
  end.

(** The captions that [mapToTimed] appends for tagged chunks, starting from
    the running offset [acc]. *)
Fixpoint spans (totalChars : Z) (duration : Q) (acc : Z)
               (tagged : list (Section * jsstring)) : list TimedCaption :=
  match tagged with
  | [] => []
  | (sec, txt) :: rest =>
      let acc' := (acc + Z.of_nat (length txt))%Z in
      mkCaption txt (inject_Z acc / inject_Z totalChars * duration)
                (inject_Z acc' / inject_Z totalChars * duration) sec
      :: spans totalChars duration acc' rest
  end.

Definition taggedChunks (script : ScriptContent) : list (Section * jsstring) :=
  map (pair Hook) (splitText (hook script))
  ++ map (pair Body) (splitText (body script))
  ++ map (pair Outro) (splitText (outro script)).

(** Non-empty intervals laid end to end from [s] to [e]. *)
Fixpoint chained (s : Q) (tl : list TimedCaption) (e : Q) : Prop :=
  match tl with
  | [] => s == e
  | c :: tl' =>
      startTime c == s /\ startTime c < endTime c /\ chained (endTime c) tl' e
  end.

(** A timeline over [[0, duration]]: no caption at all, or intervals that
    partition [[0, duration]]. *)
Definition valid_timeline (duration : Q) (tl : list TimedCaption) : Prop :=
  0 < duration /\ (tl = [] \/ chained 0 tl duration).

(** The scheduler is in [Playing]: the flag is set and the audio clock
    runs. *)
Definition scheduler_playing (w : World) : bool :=
  isPlaying w
  && match audio w with Some a => negb (paused a) | None => false end.

(** What holds between two events of a session: while nothing is being
    exported no recorder records and no ['stop'] event is pending, and
    recorders that record and pending ['stop'] events number at most one
    together. *)
Definition capture_inv (w : World) : Prop :=
  (isExporting w = false -> active w = 0%nat /\ stopEvents w = [])
  /\ (active w + length (stopEvents w) <= 1)%nat.

(** The effects that neither create nor start a recorder nor touch
    [isExporting]. *)
Definition quiet (c : Cmd) : Prop :=
  match c with
  | SetIsExporting _ | NewRecorder | RecorderStart _ => False
  | _ => True
  end.


(** [lines.join(' ')]: the lines with one space between neighbours. *)
Fixpoint joinSpace (l : list jsstring) : jsstring :=
  match l with
  | [] => []
  | x :: r =>
      match r with
      | [] => x
      | _ :: _ => x ++ 32%N :: joinSpace r
      end
  end.

(** Attempt [i] of [fn] is rejected with a rate-limit error that is not a
    key error: the case in which [callWithRetry] sleeps and goes on. *)
Definition rateLimitedAt (V : Type) (fn : nat -> Retry.Outcome V) (i : nat)
  : Prop :=
  exists err,
    fn i = Retry.Rejected err
    /\ Retry.isKeyError err = false /\ Retry.isRateLimit err = true.

(** The image assets are those of prompts 0, 1, 2, ... in this order, so
    that [images[k]] of [render] is the image of prompt [k]; and no other
    asset carries an image file name. *)
Definition aligned (assets : list Assets.AssetData) : Prop :=
  map Assets.name (Assets.images assets)
  = map Assets.imageName (seq 0 (length (Assets.images assets)))
  /\ Forall (fun a => Assets.type a = Assets.image
                      \/ forall i, Assets.name a <> Assets.imageName i) assets.

(** Sample inputs. *)
Definition quotaError : Retry.JsError :=
  Retry.mkError (Some (lit "429 Too Many Requests")) None.

Definition serverError : Retry.JsError :=
  Retry.mkError (Some (lit "Internal error")) (Some 500%Z).

Definition keyError : Retry.JsError :=
  Retry.mkError (Some (lit "429: Requested entity was not found.")) (Some 429%Z).

(** Two rate-limited attempts, then a result. *)
Definition flakyCall (i : nat) : Retry.Outcome nat :=
  if (i <? 2)%nat then Retry.Rejected quotaError else Retry.Resolved 7%nat.

(** One rate-limited attempt, then a server error. *)
Definition failingCall (i : nat) : Retry.Outcome nat :=
  if (i <? 1)%nat then Retry.Rejected quotaError else Retry.Rejected serverError.

(** One rate-limited attempt, then a lost key. *)
Definition lostKeyCall (i : nat) : Retry.Outcome nat :=
  if (i <? 1)%nat then Retry.Rejected quotaError else Retry.Rejected keyError.

Definition alwaysLimited (i : nat) : Retry.Outcome nat :=
  Retry.Rejected quotaError.

Definition halfRandom (i : nat) : Q := 1 # 2.

Definition sampleAssets : list Assets.AssetData :=
  Assets.generatedAssets
    [Some (lit "blob:1", 1%nat); Some (lit "blob:2", 2%nat);
     Some (lit "blob:3", 3%nat)]
    (Some (lit "blob:4", 4%nat)).

(** A width of ten units per code unit. *)
Definition tenPerChar (s : jsstring) : Q := inject_Z (10 * Z.of_nat (length s)).

Definition sampleScript : ScriptContent :=
  mkScript (lit "Winter treats are here.")
           (lit "First, try hotteok. Second, try odeng soup.")
           (lit "Try them today!").

Definition questionScript : ScriptContent :=
  mkScript (lit "Is it cold? Try hotteok.")
           (lit "First, try hotteok.")
           (lit "Try them today")%string.

Definition blankScript : ScriptContent :=
  mkScript (lit "  ") (lit "") (lit " ").

Definition longClause : jsstring := lit "a clause of more than twenty-four characters".

Definition longSentence : jsstring :=
  lit "a clause of more than twenty-four characters, then more.".

(** Hook until 2 s, body until 9 s, outro until 12 s. *)
Definition sampleTimeline : list TimedCaption :=
  [mkCaption (lit "Hi.") 0 2 Hook; mkCaption (lit "So.") 2 9 Body;
   mkCaption (lit "Bye.") 9 12 Outro].

Definition pausedWorld : World :=
  mkWorld false false true (Some (mkAudio (7 # 2) true None)) [] [] [].

(** A session without an audio element. *)
Definition silentWorld : World :=
  mkWorld false false true None [] [] [].

(* ================================================================== *)
(** * Strings: [trim] and [split] *)

Section StringFacts.

Lemma starts_with_space_app : forall s t,
  s <> [] -> starts_with_space (s ++ t) = starts_with_space s.
Proof. intros [|c s] t H; [congruence | reflexivity]. Qed.

Lemma trimStart_head : forall s, starts_with_space (trimStart s) = false.
Proof.
  induction s as [|c r IH]; simpl; auto.
  destruct (is_space c) eqn:E; simpl; auto.
Qed.

Lemma trimStart_id : forall s, starts_with_space s = false -> trimStart s = s.
Proof. intros [|c r] H; simpl in *; auto. now rewrite H. Qed.

Lemma trimEnd_cons : forall c r,
  trimEnd (c :: r) = [] \/ trimEnd (c :: r) = c :: trimEnd r.
Proof.
  intros c r. simpl. destruct (trimEnd r) eqn:E.
  - destruct (is_space c); auto.
  - auto.
Qed.

Lemma trimEnd_head : forall s,
  starts_with_space s = false -> starts_with_space (trimEnd s) = false.
Proof.
  intros [|c r] H; simpl in *; auto.
  destruct (trimEnd r); [rewrite H|]; simpl; auto.
Qed.

Lemma trimEnd_nonempty : forall s,
  s <> [] -> starts_with_space s = false -> trimEnd s <> [].
Proof.
  intros [|c r] Hn H; [congruence|]. simpl in *.
  destruct (trimEnd r); [rewrite H|]; discriminate.
Qed.

Lemma trimEnd_last : forall s, starts_with_space (rev (trimEnd s)) = false.
Proof.
  induction s as [|c r IH]; simpl; auto.
  destruct (trimEnd r) as [|d r'] eqn:E.
  - destruct (is_space c) eqn:Ec; simpl; auto.
  - change (rev (c :: d :: r')) with (rev (d :: r') ++ [c]).
    rewrite starts_with_space_app; auto.
    simpl. intro H. apply app_eq_nil in H. destruct H; discriminate.
Qed.

Lemma trim_no_edge_space : forall s, no_edge_space (trim s).
Proof.
  intro s. split; unfold trim.
  - apply trimEnd_head, trimStart_head.
  - apply trimEnd_last.
Qed.

Lemma trim_nonempty : forall s,
  s <> [] -> starts_with_space s = false -> trim s <> [].
Proof.
  intros s Hn H. unfold trim. rewrite trimStart_id by assumption.
  now apply trimEnd_nonempty.
Qed.

Lemma is_term_not_space : forall c, is_term c = true -> is_space c = false.
Proof.
  intros c H. unfold is_term in H. unfold is_space.
  repeat rewrite orb_true_iff in H. repeat rewrite N.eqb_eq in H.
  destruct H as [[H|H]|H]; subst; reflexivity.
Qed.

Lemma is_comma_not_space : forall c, is_comma c = true -> is_space c = false.
Proof.
  intros c H. unfold is_comma in H. apply N.eqb_eq in H. now subst.
Qed.

Lemma split_go_nonempty : forall delim capture s sk,
  split_go delim capture sk s <> [].
Proof.
  induction s as [|c r IH]; intro sk; simpl; [discriminate|].
  destruct (sk && is_space c); [apply IH|].
  destruct (delim c && starts_with_space r); [discriminate|].
  destruct (split_go delim capture false r); discriminate.
Qed.

Variable delim : char16 -> bool.
Variable capture : bool.
Hypothesis delim_not_space : forall c, delim c = true -> is_space c = false.

Lemma split_go_head : forall s sk,
  (sk = true \/ starts_with_space s = false) ->
  starts_with_space (hd [] (split_go delim capture sk s)) = false.
Proof.
  induction s as [|c r IH]; intros sk H; simpl; auto.
  destruct (sk && is_space c) eqn:E1.
  - apply IH. left. reflexivity.
  - destruct (delim c && starts_with_space r) eqn:E2; [reflexivity|].
    assert (Hc : is_space c = false).
    { destruct H as [->|H]; [exact E1 | exact H]. }
    destruct (split_go delim capture false r); simpl; exact Hc.
Qed.

Lemma split_go_tail : forall s sk,
  Forall (fun p => starts_with_space p = false)
         (tl (split_go delim capture sk s)).
Proof.
  induction s as [|c r IH]; intro sk; simpl; [constructor|].
  destruct (sk && is_space c); [apply IH|].
  destruct (delim c && starts_with_space r) eqn:E2.
  - simpl. apply andb_prop in E2. destruct E2 as [Hd _].
    assert (Hrest : Forall (fun p => starts_with_space p = false)
                           (split_go delim capture true r)).
    { pose proof (split_go_head r (sk := true) (or_introl eq_refl)) as Hh.
      pose proof (IH true) as Ht.
      destruct (split_go delim capture true r); constructor; auto. }
    destruct capture; simpl; auto.
    constructor; auto. simpl. now apply delim_not_space.
  - pose proof (IH false) as Ht.
    destruct (split_go delim capture false r); simpl in *; auto.
Qed.

Lemma split_heads : forall s,
  starts_with_space s = false ->
  Forall (fun p => starts_with_space p = false) (split delim capture s).
Proof.
  intros s H. unfold split.
  pose proof (split_go_head s (sk := false) (or_intror H)) as Hh.
  pose proof (split_go_tail s false) as Ht.
  destruct (split_go delim capture false s); constructor; auto.
Qed.

End StringFacts.

(* ================================================================== *)
(** * Segmenter: shape of the chunks *)

Section SegmenterShape.

Lemma solid_app : forall cur p, cur = [] \/ solid cur -> solid p -> solid (cur ++ p).
Proof.
  intros cur p [->|[Hn Hs]] [Hpn Hps]; simpl; [split; assumption|].
  split.
  - intro H. apply app_eq_nil in H. tauto.
  - now rewrite starts_with_space_app.
Qed.

Lemma trim_solid_clean : forall b, solid b -> clean (trim b).
Proof.
  intros b [Hn Hs]. split; [now apply trim_nonempty | apply trim_no_edge_space].
Qed.

Lemma sentences_clean : forall text s, In s (sentences text) -> clean s.
Proof.
  intros text s H. unfold sentences in H.
  apply in_map_iff in H. destruct H as [p [<- Hp]].
  apply filter_In in Hp. destruct Hp as [_ Hlen].
  apply Nat.ltb_lt in Hlen.
  assert (Hne : trim p <> []) by (intro E; rewrite E in Hlen; simpl in Hlen; lia).
  destruct (trim_no_edge_space p) as [Hh Hl].
  split; [|split].
  - intro E. apply app_eq_nil in E. tauto.
  - now rewrite starts_with_space_app.
  - rewrite rev_app_distr. destruct (ends_with_term p).
    + simpl. exact Hl.
    + reflexivity.
Qed.

Lemma commaParts_solid : forall s,
  starts_with_space s = false -> Forall solid (commaParts s).
Proof.
  intros s H. unfold commaParts. apply Forall_forall. intros p Hp.
  apply filter_In in Hp. destruct Hp as [Hin Hne].
  pose proof (split_heads is_comma true is_comma_not_space s H) as Hall.
  rewrite Forall_forall in Hall. split.
  - intro E. subst p. discriminate.
  - now apply Hall.
Qed.

Lemma accumulate_clean : forall parts cur,
  Forall solid parts -> cur = [] \/ solid cur ->
  Forall clean (accumulate trim cur parts).
Proof.
  induction parts as [|p ps IH]; intros cur Hall Hcur; simpl.
  - destruct cur as [|c cur]; simpl; [constructor|].
    constructor; [|constructor]. apply trim_solid_clean.
    destruct Hcur as [E|Hs]; [discriminate | exact Hs].
  - inversion Hall as [|? ? Hp Hps]; subst.
    destruct ((MAX_CHARS <? length (cur ++ p)) && negb (is_empty cur)) eqn:E.
    + apply andb_prop in E. destruct E as [_ Hne].
      constructor.
      * apply trim_solid_clean. destruct Hcur as [->|Hs]; [discriminate | exact Hs].
      * apply IH; auto.
    + apply IH; auto. right. now apply solid_app.
Qed.

Lemma chunkSentence_clean : forall s, clean s -> Forall clean (chunkSentence s).
Proof.
  intros s Hs. unfold chunkSentence. destruct (length s <=? MAX_CHARS).
  - constructor; [exact Hs | constructor].
  - apply accumulate_clean; [|now left].
    apply commaParts_solid. apply Hs.
Qed.

Lemma splitText_clean : forall text c,
  In c (splitText text) -> c <> [] /\ no_edge_space c.
Proof.
  intros text c H. unfold splitText in H. apply in_flat_map in H.
  destruct H as [s [Hs Hc]]. apply sentences_clean in Hs.
  pose proof (chunkSentence_clean Hs) as Hall.
  rewrite Forall_forall in Hall. now apply Hall.
Qed.

End SegmenterShape.

Lemma splitText_nonempty_chunks : forall text,
  Forall (fun c => c <> []) (splitText text).
Proof.
  intro text. apply Forall_forall. intros c H.
  now apply splitText_clean in H.
Qed.

(* ================================================================== *)
(** * Segmenter: the greedy comma loop *)

Section GreedyLoop.

Variable post : jsstring -> jsstring.

Lemma accumulate_long_buffer : forall cur ps,
  (MAX_CHARS < length cur)%nat -> In (post cur) (accumulate post cur ps).
Proof.
  intros cur ps Hlen.
  assert (Hne : is_empty cur = false) by (destruct cur; [simpl in Hlen; lia | reflexivity]).
  destruct ps as [|q qs]; simpl.
  - rewrite Hne. now left.
  - rewrite Hne. simpl. rewrite length_app.
    replace (MAX_CHARS <? length cur + length q) with true.
    + now left.
    + symmetry. apply Nat.ltb_lt. lia.
Qed.

Lemma accumulate_emits_long : forall parts cur p,
  In p parts -> (MAX_CHARS < length p)%nat ->
  In (post p) (accumulate post cur parts).
Proof.
  induction parts as [|q qs IH]; intros cur p Hin Hlen; [contradiction|].
  simpl. destruct Hin as [->|Hin].
  - destruct cur as [|c cur].
    + simpl. rewrite andb_false_r. now apply accumulate_long_buffer.
    + replace (MAX_CHARS <? length ((c :: cur) ++ p)) with true.
      * simpl. right. now apply accumulate_long_buffer.
      * symmetry. apply Nat.ltb_lt. rewrite length_app. lia.
  - destruct ((MAX_CHARS <? length (cur ++ q)) && negb (is_empty cur)).
    + right. now apply IH.
    + now apply IH.
Qed.

Lemma accumulate_post : forall parts cur,
  accumulate post cur parts = map post (accumulate (fun b => b) cur parts).
Proof.
  induction parts as [|q qs IH]; intro cur; simpl.
  - now destruct (is_empty cur).
  - destruct ((MAX_CHARS <? length (cur ++ q)) && negb (is_empty cur)); simpl;
      now rewrite IH.
Qed.

End GreedyLoop.

Lemma accumulate_buffers_nonempty : forall parts cur,
  Forall (fun b => b <> []) (accumulate (fun b => b) cur parts).
Proof.
  induction parts as [|q qs IH]; intro cur; simpl.
  - destruct cur; simpl; constructor; [discriminate | constructor].
  - destruct ((MAX_CHARS <? length (cur ++ q)) && negb (is_empty cur)) eqn:E.
    + apply andb_prop in E. destruct E as [_ E].
      constructor; [|apply IH]. intro H. subst cur. discriminate.
    + apply IH.
Qed.

Lemma in_concat_length : forall (l : list jsstring) x,
  In x l -> (length x <= length (concat l))%nat.
Proof.
  induction l as [|y l IH]; intros x H; [contradiction|].
  simpl. rewrite length_app. destruct H as [->|H]; [lia|].
  apply IH in H. lia.
Qed.

Lemma split_go_length : forall delim capture s sk,
  (length (concat (split_go delim capture sk s)) <= length s)%nat.
Proof.
  induction s as [|c r IH]; intro sk; simpl; [lia|].
  destruct (sk && is_space c).
  - specialize (IH true). lia.
  - destruct (delim c && starts_with_space r).
    + specialize (IH true). destruct capture; simpl; lia.
    + specialize (IH false).
      destruct (split_go delim capture false r); simpl in *; lia.
Qed.

Lemma concat_filter_nonempty : forall l : list jsstring,
  concat (filter (fun p => negb (is_empty p)) l) = concat l.
Proof.
  induction l as [|[|c p] l IH]; simpl; auto. now rewrite IH.
Qed.

Lemma commaParts_length : forall s p,
  In p (commaParts s) -> (length p <= length s)%nat.
Proof.
  intros s p H. apply in_concat_length in H. unfold commaParts in H.
  rewrite concat_filter_nonempty in H.
  pose proof (split_go_length is_comma true s false). unfold split in H. lia.
Qed.

(* ================================================================== *)
(** * Segmenter: what the chunks keep of the text *)

Section CoreText.

Lemma core_app : forall s t, core (s ++ t) = core s ++ core t.
Proof. intros. unfold core. apply filter_app. Qed.

Lemma core_space : forall c r, is_space c = true -> core (c :: r) = core r.
Proof. intros c r H. unfold core. simpl. now rewrite H. Qed.

Lemma core_term : forall c r, is_term c = true -> core (c :: r) = core r.
Proof. intros c r H. unfold core. simpl. rewrite H. now rewrite andb_false_r. Qed.

Lemma core_trimStart : forall s, core (trimStart s) = core s.
Proof.
  induction s as [|c r IH]; auto.
  cbn [trimStart]. destruct (is_space c) eqn:E; auto. now rewrite core_space.
Qed.

Lemma core_trimEnd : forall s, core (trimEnd s) = core s.
Proof.
  induction s as [|c r IH]; auto.
  cbn [trimEnd]. destruct (trimEnd r) as [|d r'] eqn:E.
  - destruct (is_space c) eqn:Ec.
    + rewrite core_space by assumption. exact IH.
    + change (c :: r) with ([c] ++ r). rewrite core_app, <- IH.
      cbn. now rewrite app_nil_r.
  - change (c :: d :: r') with ([c] ++ d :: r').
    change (c :: r) with ([c] ++ r). now rewrite !core_app, IH.
Qed.

Lemma core_trim : forall s, core (trim s) = core s.
Proof. intro s. unfold trim. now rewrite core_trimEnd, core_trimStart. Qed.

Lemma core_split_go : forall delim capture,
  (capture = false -> forall c, delim c = true -> is_term c = true) ->
  forall s sk, core (concat (split_go delim capture sk s)) = core s.
Proof.
  intros delim capture Hd. induction s as [|c r IH]; intro sk; auto.
  cbn [split_go].
  destruct (sk && is_space c) eqn:E1.
  - apply andb_prop in E1. destruct E1 as [_ Hc].
    rewrite core_space by assumption. apply IH.
  - destruct (delim c && starts_with_space r) eqn:E2.
    + apply andb_prop in E2. destruct E2 as [Hdc _].
      cbn [concat app]. rewrite concat_app, core_app, IH.
      destruct capture.
      * cbn [concat app].
        change (c :: r) with ([c] ++ r). now rewrite core_app.
      * rewrite (@core_term c r) by auto. reflexivity.
    + specialize (IH false).
      destruct (split_go delim capture false r) as [|p ps].
      * cbn [concat app] in *. change (c :: r) with ([c] ++ r).
        rewrite core_app, <- IH. cbn [core filter]. now rewrite app_nil_r.
      * cbn [concat] in *. change ((c :: p) ++ concat ps) with ([c] ++ (p ++ concat ps)).
        change (c :: r) with ([c] ++ r).
        now rewrite (core_app [c] (p ++ concat ps)), (core_app [c] r), IH.
Qed.

Lemma core_sentences : forall text, core (concat (sentences text)) = core text.
Proof.
  intro text. unfold sentences.
  transitivity (core (concat (split_go is_term false false text)));
    [|apply core_split_go; auto].
  unfold split. generalize (split_go is_term false false text) as l.
  induction l as [|s l IH]; auto.
  cbn [filter]. destruct (0 <? length (trim s)) eqn:E.
  - cbn [map concat]. rewrite !core_app, IH, core_trim.
    destruct (ends_with_term s); [now rewrite app_nil_r|].
    cbn. now rewrite app_nil_r.
  - cbn [concat]. rewrite core_app, <- IH.
    apply Nat.ltb_ge in E.
    assert (Ht : trim s = []) by (destruct (trim s); [reflexivity | simpl in E; lia]).
    now rewrite <- (core_trim s), Ht.
Qed.

Lemma core_accumulate : forall parts cur,
  core (concat (accumulate trim cur parts)) = core cur ++ core (concat parts).
Proof.
  induction parts as [|p ps IH]; intro cur; cbn [accumulate concat].
  - rewrite app_nil_r. destruct cur; auto.
    cbn [is_empty concat]. now rewrite app_nil_r, core_trim.
  - destruct ((MAX_CHARS <? length (cur ++ p)) && negb (is_empty cur)).
    + cbn [concat]. now rewrite !core_app, IH, core_trim.
    + now rewrite IH, !core_app, app_assoc.
Qed.

Lemma core_chunkSentence : forall s, core (concat (chunkSentence s)) = core s.
Proof.
  intro s. unfold chunkSentence. destruct (length s <=? MAX_CHARS).
  - cbn. now rewrite app_nil_r.
  - rewrite core_accumulate. unfold commaParts.
    rewrite concat_filter_nonempty. cbn [core filter app].
    apply core_split_go. discriminate.
Qed.

Lemma core_splitText : forall text, core (concat (splitText text)) = core text.
Proof.
  intro text.
  transitivity (core (concat (sentences text))); [|apply core_sentences].
  unfold splitText. generalize (sentences text) as l.
  induction l as [|s l IH]; auto.
  cbn [flat_map concat]. now rewrite concat_app, !core_app, IH, core_chunkSentence.
Qed.

End CoreText.

(* ================================================================== *)
(** * Timeline mapper: what [getTimedCaptions] returns *)

Section MapperFacts.

Variable totalChars : Z.
Variable duration : Q.

Lemma jsdiv_nonzero : forall a,
  totalChars <> 0%Z ->
  jsdiv a (inject_Z totalChars) = Some (a / inject_Z totalChars).
Proof.
  intros a H. unfold jsdiv.
  destruct (Qeq_bool (inject_Z totalChars) 0) eqn:E; auto.
  apply Qeq_bool_eq in E. unfold Qeq in E. simpl in E. lia.
Qed.

Lemma spans_app : forall a b acc,
  spans totalChars duration acc (a ++ b)
  = spans totalChars duration acc a
    ++ spans totalChars duration
             (acc + Z.of_nat (length (concat (map snd a))))%Z b.
Proof.
  induction a as [|[sec txt] a IH]; intros b acc; simpl.
  - now rewrite Z.add_0_r.
  - rewrite IH. rewrite length_app, Nat2Z.inj_add, Z.add_assoc. reflexivity.
Qed.

Lemma map_snd_pair : forall (sec : Section) (chunks : list jsstring),
  map snd (map (pair sec) chunks) = chunks.
Proof. induction chunks; simpl; congruence. Qed.

Lemma mapToTimed_spans : forall chunks sec st,
  totalChars <> 0%Z ->
  mapToTimed totalChars duration chunks sec st
  = Some (mkState (accumulatedChars st + Z.of_nat (length (concat chunks)))
                  (captions st
                   ++ spans totalChars duration (accumulatedChars st)
                            (map (pair sec) chunks))).
Proof.
  induction chunks as [|txt rest IH]; intros sec st H; simpl.
  - rewrite Z.add_0_r, app_nil_r. now destruct st.
  - rewrite !jsdiv_nonzero by assumption. rewrite IH by assumption. simpl.
    rewrite <- app_assoc. simpl.
    rewrite length_app, Nat2Z.inj_add, Z.add_assoc. reflexivity.
Qed.

End MapperFacts.

Lemma concat_nonempty_nil : forall l : list jsstring,
  Forall (fun c => c <> []) l -> concat l = [] -> l = [].
Proof.
  intros [|c l] H E; auto. inversion H; subst. simpl in E.
  apply app_eq_nil in E. tauto.
Qed.

Lemma totalChars_tagged : forall script,
  totalCharsOf script
  = Z.of_nat (length (concat (map snd (taggedChunks script)))).
Proof.
  intro script. unfold totalCharsOf, taggedChunks.
  now rewrite !map_app, !map_snd_pair, !concat_app.
Qed.

Lemma getTimedCaptions_spans : forall script duration,
  totalCharsOf script <> 0%Z ->
  getTimedCaptions script duration
  = Some (spans (totalCharsOf script) duration 0 (taggedChunks script)).
Proof.
  intros script duration H. unfold getTimedCaptions.
  rewrite mapToTimed_spans by assumption. cbn [accumulatedChars captions].
  rewrite mapToTimed_spans by assumption. cbn [accumulatedChars captions].
  rewrite mapToTimed_spans by assumption. cbn [accumulatedChars captions app].
  unfold taggedChunks. rewrite !spans_app, !map_snd_pair.
  rewrite <- app_assoc. rewrite Z.add_0_l. reflexivity.
Qed.

Lemma zero_chars_no_chunks : forall script,
  totalCharsOf script = 0%Z ->
  splitText (hook script) = [] /\ splitText (body script) = []
  /\ splitText (outro script) = [].
Proof.
  intros script H. unfold totalCharsOf in H.
  assert (E : concat (splitText (hook script)) ++ concat (splitText (body script))
              ++ concat (splitText (outro script)) = []).
  { destruct (concat (splitText (hook script)) ++ concat (splitText (body script))
              ++ concat (splitText (outro script))); [reflexivity | simpl in H; lia]. }
  apply app_eq_nil in E. destruct E as [E1 E]. apply app_eq_nil in E.
  destruct E as [E2 E3].
  repeat split; apply concat_nonempty_nil; auto using splitText_nonempty_chunks.
Qed.

Lemma getTimedCaptions_zero : forall script duration,
  totalCharsOf script = 0%Z -> getTimedCaptions script duration = Some [].
Proof.
  intros script duration H. unfold getTimedCaptions.
  destruct (zero_chars_no_chunks script H) as [-> [-> ->]]. reflexivity.
Qed.

Lemma getTimedCaptions_total : forall script duration,
  getTimedCaptions script duration <> None.
Proof.
  intros script duration. destruct (Z.eq_dec (totalCharsOf script) 0) as [E|E].
  - now rewrite getTimedCaptions_zero.
  - now rewrite getTimedCaptions_spans.
Qed.

Lemma taggedChunks_nonempty : forall script,
  Forall (fun p => snd p <> []) (taggedChunks script).
Proof.
  intro script. unfold taggedChunks. rewrite !Forall_app.
  repeat split; apply Forall_forall; intros [sec txt] H;
    apply in_map_iff in H; destruct H as [c [E Hc]]; inversion E; subst;
    simpl; now apply splitText_clean in Hc.
Qed.

Lemma blank_trim : forall s, blank s -> trimStart s = [].
Proof.
  unfold blank. induction s as [|c r IH]; simpl; auto.
  intro H. apply andb_prop in H. destruct H as [Hc Hr]. rewrite Hc. auto.
Qed.

Lemma blank_split : forall s sk,
  blank s -> Forall blank (split_go is_term false sk s).
Proof.
  unfold blank. induction s as [|c r IH]; intros sk H; simpl in *.
  - constructor; [reflexivity | constructor].
  - apply andb_prop in H. destruct H as [Hc Hr].
    destruct (sk && is_space c); [now apply IH|].
    assert (Ht : is_term c = false).
    { destruct (is_term c) eqn:E; auto. apply is_term_not_space in E. congruence. }
    rewrite Ht. simpl. specialize (IH false Hr).
    destruct (split_go is_term false false r) as [|p ps].
    + constructor; [simpl; now rewrite Hc | constructor].
    + inversion IH as [|? ? Hp Hps]; subst.
      constructor; [simpl; now rewrite Hc | assumption].
Qed.

Lemma blank_splitText : forall text, blank text -> splitText text = [].
Proof.
  intros text H. unfold splitText, sentences, split.
  pose proof (blank_split false H) as Hall.
  induction (split_go is_term false false text) as [|p ps IH]; auto.
  inversion Hall as [|? ? Hp Hps]; subst. cbn [filter].
  replace (trim p) with (@nil char16)
    by (unfold trim; now rewrite blank_trim).
  cbn [length Nat.ltb Nat.leb]. now apply IH.
Qed.

(* ================================================================== *)
(** * Timelines: intervals laid end to end *)

Section Chains.

Lemma chained_proper : forall tl s s' e e',
  s == s' -> e == e' -> chained s tl e -> chained s' tl e'.
Proof.
  induction tl as [|c tl IH]; intros s s' e e' Hs He H; simpl in *.
  - now rewrite <- Hs, <- He.
  - destruct H as [H1 [H2 H3]]. repeat split; auto.
    + now rewrite H1.
    + eapply IH; eauto. reflexivity.
Qed.

Lemma chained_le : forall tl s e, chained s tl e -> s <= e.
Proof.
  induction tl as [|c tl IH]; intros s e H; simpl in *.
  - rewrite H. apply Qle_refl.
  - destruct H as [H1 [H2 H3]]. apply IH in H3. rewrite <- H1.
    apply Qlt_le_weak. eapply Qlt_le_trans; eauto.
Qed.

Lemma chained_In : forall tl s e c,
  chained s tl e -> In c tl ->
  s <= startTime c /\ startTime c < endTime c /\ endTime c <= e.
Proof.
  induction tl as [|x tl IH]; intros s e c H Hin; [contradiction|].
  simpl in H. destruct H as [H1 [H2 H3]]. destruct Hin as [->|Hin].
  - repeat split; auto.
    + rewrite H1. apply Qle_refl.
    + now apply chained_le in H3.
  - destruct (IH _ _ _ H3 Hin) as [A [B C]]. repeat split; auto.
    rewrite <- H1. apply Qlt_le_weak. eapply Qlt_le_trans; eauto.
Qed.

Lemma chained_suffix : forall pre post s e,
  chained s (pre ++ post) e -> exists m, s <= m /\ chained m post e.
Proof.
  induction pre as [|x pre IH]; intros post s e H.
  - exists s. split; [apply Qle_refl | exact H].
  - simpl in H. destruct H as [H1 [H2 H3]].
    destruct (IH _ _ _ H3) as [m [Hm Hc]]. exists m. split; auto.
    rewrite <- H1. apply Qlt_le_weak. eapply Qlt_le_trans; eauto.
Qed.

Lemma chained_adjacent : forall tl s e i c c',
  chained s tl e -> nth_error tl i = Some c -> nth_error tl (S i) = Some c' ->
  startTime c' == endTime c /\ startTime c <= startTime c'.
Proof.
  induction tl as [|x tl IH]; intros s e i c c' H Hc Hc'.
  - destruct i; discriminate.
  - simpl in H. destruct H as [H1 [H2 H3]]. destruct i as [|i].
    + simpl in Hc. inversion Hc; subst x. simpl in Hc'.
      destruct tl as [|y tl]; [discriminate|]. simpl in Hc'.
      inversion Hc'; subst y. simpl in H3. destruct H3 as [H4 _].
      split; auto. rewrite H4. now apply Qlt_le_weak.
    + simpl in Hc, Hc'. eapply IH; eauto.
Qed.

Lemma last_opt_cons : forall (A : Type) (x y : A) l,
  last_opt (x :: y :: l) = last_opt (y :: l).
Proof.
  intros A x y l. unfold last_opt. simpl.
  destruct (rev l ++ [y]) eqn:E; [|reflexivity].
  apply app_eq_nil in E. destruct E; discriminate.
Qed.

Lemma last_opt_In : forall (A : Type) (l : list A) x,
  last_opt l = Some x -> In x l.
Proof.
  intros A l x H. unfold last_opt in H. apply in_rev.
  destruct (rev l); inversion H; subst. now left.
Qed.

Lemma chained_last : forall tl s e c,
  chained s tl e -> last_opt tl = Some c -> endTime c == e.
Proof.
  induction tl as [|x tl IH]; intros s e c H Hl; [discriminate|].
  simpl in H. destruct H as [H1 [H2 H3]]. destruct tl as [|y tl].
  - unfold last_opt in Hl. simpl in Hl. inversion Hl; subst. exact H3.
  - rewrite last_opt_cons in Hl. eapply IH; eauto.
Qed.

Lemma chained_find : forall tl s e t,
  chained s tl e -> s <= t ->
  find (fun c => Qle_bool (startTime c) t && negb (Qle_bool (endTime c) t)) tl
  = None ->
  e <= t.
Proof.
  induction tl as [|x tl IH]; intros s e t H Hs Hf; simpl in *.
  - now rewrite <- H.
  - destruct H as [H1 [H2 H3]].
    destruct (Qle_bool (startTime x) t) eqn:E1.
    + destruct (Qle_bool (endTime x) t) eqn:E2; simpl in Hf; [|discriminate].
      apply Qle_bool_iff in E2. eapply IH; eauto.
    + exfalso. rewrite <- H1 in Hs. apply Qle_bool_iff in Hs. congruence.
Qed.

Lemma span_lt : forall (a b t : Z) (d : Q),
  (a < b)%Z -> (0 < t)%Z -> 0 < d ->
  inject_Z a / inject_Z t * d < inject_Z b / inject_Z t * d.
Proof.
  intros a b t d Hab Ht Hd.
  apply Qmult_lt_r; auto. unfold Qdiv. apply Qmult_lt_r.
  - apply Qinv_lt_0_compat. change (inject_Z 0 < inject_Z t).
    now rewrite <- Zlt_Qlt.
  - now rewrite <- Zlt_Qlt.
Qed.

Lemma chained_spans : forall total d tagged acc,
  (0 < total)%Z -> 0 < d ->
  Forall (fun p : Section * jsstring => snd p <> []) tagged ->
  chained (inject_Z acc / inject_Z total * d)
          (spans total d acc tagged)
          (inject_Z (acc + Z.of_nat (length (concat (map snd tagged))))
           / inject_Z total * d).
Proof.
  intros total d. induction tagged as [|[sec txt] tagged IH];
    intros acc Ht Hd Hall.
  - simpl. rewrite Z.add_0_r. reflexivity.
  - inversion Hall as [|? ? Hne Hrest]; subst. simpl in Hne.
    cbn [spans chained startTime endTime]. split; [|split].
    + reflexivity.
    + apply span_lt; auto. destruct txt; [congruence | simpl length; lia].
    + cbn [map snd concat]. rewrite length_app, Nat2Z.inj_add, Z.add_assoc.
      now apply IH.
Qed.

Lemma getTimedCaptions_chained : forall script d caps,
  (0 < totalCharsOf script)%Z -> 0 < d ->
  getTimedCaptions script d = Some caps ->
  caps <> [] /\ chained 0 caps d.
Proof.
  intros script d caps Ht Hd H.
  rewrite getTimedCaptions_spans in H by lia. inversion H; subst caps; clear H.
  split.
  - pose proof (totalChars_tagged script) as E.
    destruct (taggedChunks script) as [|[sec txt] l]; [simpl in E; lia|].
    discriminate.
  - pose proof (@chained_spans _ d _ 0%Z Ht Hd (taggedChunks_nonempty script)) as C.
    rewrite Z.add_0_l, <- totalChars_tagged in C.
    eapply chained_proper; [| |exact C].
    + unfold Qdiv. now rewrite Qmult_0_l, Qmult_0_l.
    + unfold Qdiv. rewrite Qmult_inv_r, Qmult_1_l; [reflexivity|].
      unfold Qeq. simpl. lia.
Qed.

End Chains.

(* ================================================================== *)
(** * Captions of a script *)

Section CaptionsOfScript.

Lemma spans_In : forall total d tagged acc cap,
  In cap (spans total d acc tagged) -> In (section cap, text cap) tagged.
Proof.
  induction tagged as [|[sec txt] tagged IH]; intros acc cap H; [contradiction|].
  simpl in H. destruct H as [<-|H]; [now left | right; eauto].
Qed.

Lemma taggedChunks_In : forall script sec txt,
  In (sec, txt) (taggedChunks script) -> In txt (splitText (sectionOf sec script)).
Proof.
  intros script sec txt H. unfold taggedChunks in H.
  rewrite !in_app_iff in H.
  destruct H as [H|[H|H]]; apply in_map_iff in H; destruct H as [c [E Hc]];
    inversion E; subst; exact Hc.
Qed.

Lemma getTimedCaptions_In : forall script d caps cap,
  getTimedCaptions script d = Some caps -> In cap caps ->
  In (section cap, text cap) (taggedChunks script).
Proof.
  intros script d caps cap H Hin.
  destruct (Z.eq_dec (totalCharsOf script) 0) as [E|E].
  - rewrite getTimedCaptions_zero in H by assumption.
    inversion H; subst. contradiction.
  - rewrite getTimedCaptions_spans in H by assumption.
    inversion H; subst. eapply spans_In; eauto.
Qed.

Lemma sectionText_spans : forall total d sec tagged acc,
  sectionText sec (spans total d acc tagged)
  = concat (map snd (filter (fun p => Section_eqb (fst p) sec) tagged)).
Proof.
  intros total d sec. unfold sectionText.
  induction tagged as [|[sec' txt] tagged IH]; intro acc; auto.
  cbn [spans filter section fst]. destruct (Section_eqb sec' sec).
  - cbn [map concat text snd]. now rewrite IH.
  - apply IH.
Qed.

Lemma filter_tag : forall sec sec' (chunks : list jsstring),
  filter (fun p => Section_eqb (fst p) sec) (map (pair sec') chunks)
  = if Section_eqb sec' sec then map (pair sec') chunks else [].
Proof.
  intros sec sec' chunks. induction chunks as [|c l IH]; simpl.
  - now destruct (Section_eqb sec' sec).
  - rewrite IH. now destruct (Section_eqb sec' sec).
Qed.

Lemma sectionText_getTimedCaptions : forall script d caps sec,
  getTimedCaptions script d = Some caps ->
  sectionText sec caps = concat (splitText (sectionOf sec script)).
Proof.
  intros script d caps sec H.
  destruct (Z.eq_dec (totalCharsOf script) 0) as [E|E].
  - rewrite getTimedCaptions_zero in H by assumption. inversion H; subst.
    destruct (zero_chars_no_chunks script E) as [E1 [E2 E3]].
    destruct sec; simpl; now rewrite ?E1, ?E2, ?E3.
  - rewrite getTimedCaptions_spans in H by assumption. inversion H; subst.
    rewrite sectionText_spans. unfold taggedChunks.
    rewrite !filter_app, !filter_tag.
    destruct sec; simpl; now rewrite ?app_nil_r, map_snd_pair.
Qed.

End CaptionsOfScript.

(* ================================================================== *)
(** * Properties of the segmenter and of the mapper *)

(** C2.  For every script whose chunks hold at least one character and every
    positive duration, [getTimedCaptions] returns a non-empty caption
    sequence in which every caption starts strictly before it ends, start
    times never decrease, each caption starts where the previous one ends,
    the first caption starts at 0 and the last one ends at the duration. *)
Theorem getTimedCaptions_timeline :
  forall (script : ScriptContent) (duration : Q),
    (0 < totalCharsOf script)%Z -> 0 < duration ->
    exists caps,
      getTimedCaptions script duration = Some caps
      /\ (forall c, In c caps -> startTime c < endTime c)
      /\ (forall i c c',
            nth_error caps i = Some c -> nth_error caps (S i) = Some c' ->
            startTime c <= startTime c' /\ startTime c' == endTime c)
      /\ (exists c0, hd_error caps = Some c0 /\ startTime c0 == 0)
      /\ (exists cl, last_opt caps = Some cl /\ endTime cl == duration).
Proof.
  intros script duration Ht Hd.
  destruct (getTimedCaptions script duration) as [caps|] eqn:E;
    [|now apply getTimedCaptions_total in E].
  destruct (getTimedCaptions_chained script Ht Hd E) as [Hne C].
  exists caps. split; [reflexivity|]. split; [|split; [|split]].
  - intros c Hc. eapply chained_In; eauto.
  - intros i c c' Hc Hc'.
    assert (startTime c' == endTime c /\ startTime c <= startTime c') as [A B]
      by (eapply chained_adjacent; eauto).
    now split.
  - destruct caps as [|c0 caps]; [congruence|]. exists c0.
    split; [reflexivity|]. simpl in C. tauto.
  - destruct (last_opt caps) as [cl|] eqn:El.
    + exists cl. split; [reflexivity|]. eapply chained_last; eauto.
    + exfalso. unfold last_opt in El. destruct (rev caps) eqn:Er; [|discriminate].
      apply (f_equal (@rev _)) in Er. rewrite rev_involutive in Er. now subst.
Qed.

Lemma getTimedCaptions_timeline_witness :
  exists caps,
    getTimedCaptions sampleScript 12 = Some caps
    /\ (forall c, In c caps -> startTime c < endTime c)
    /\ (forall i c c',
          nth_error caps i = Some c -> nth_error caps (S i) = Some c' ->
          startTime c <= startTime c' /\ startTime c' == endTime c)
    /\ (exists c0, hd_error caps = Some c0 /\ startTime c0 == 0)
    /\ (exists cl, last_opt caps = Some cl /\ endTime cl == 12).
Proof.
  apply (getTimedCaptions_timeline sampleScript (duration := 12));
    reflexivity.
Defined.

(** C7.  When the three sections segment to no character at all
    ([totalChars = 0]), [getTimedCaptions] returns the empty caption
    sequence: no division is attempted, so no division by zero surfaces. *)
Theorem getTimedCaptions_empty_script :
  forall (script : ScriptContent) (duration : Q),
    totalCharsOf script = 0%Z ->
    splitText (hook script) = [] /\ splitText (body script) = []
    /\ splitText (outro script) = []
    /\ getTimedCaptions script duration = Some [].
Proof.
  intros script duration H.
  destruct (zero_chars_no_chunks script H) as [E1 [E2 E3]].
  repeat split; auto. now apply getTimedCaptions_zero.
Qed.

Lemma getTimedCaptions_empty_script_witness :
  blank (hook blankScript) /\ blank (body blankScript)
  /\ blank (outro blankScript)
  /\ getTimedCaptions blankScript 12 = Some [].
Proof.
  split; [reflexivity|]. split; [reflexivity|]. split; [reflexivity|].
  apply (@getTimedCaptions_empty_script blankScript 12). reflexivity.
Defined.

(** C9.  Every chunk that [splitText] produces is non-empty and has no white
    space at either end; so every caption of [getTimedCaptions] has a
    non-empty text, which counts for at least one character of
    [totalChars]. *)
Theorem chunks_nonempty_trimmed :
  (forall text c, In c (splitText text) -> c <> [] /\ no_edge_space c)
  /\ (forall script duration,
        exists caps,
          getTimedCaptions script duration = Some caps
          /\ forall cap, In cap caps ->
               text cap <> [] /\ no_edge_space (text cap)
               /\ (1 <= Z.of_nat (length (text cap)) <= totalCharsOf script)%Z).
Proof.
  split; [apply splitText_clean|].
  intros script duration.
  destruct (getTimedCaptions script duration) as [caps|] eqn:E;
    [|now apply getTimedCaptions_total in E].
  exists caps. split; [reflexivity|]. intros cap Hcap.
  assert (Hin : In (section cap, text cap) (taggedChunks script))
    by (eapply getTimedCaptions_In; eauto).
  pose proof Hin as Hc. apply taggedChunks_In in Hc.
  apply splitText_clean in Hc. destruct Hc as [Hne Hedge].
  repeat split; try apply Hedge; auto.
  - destruct (text cap); [congruence | simpl length; lia].
  - rewrite totalChars_tagged. apply inj_le.
    apply (in_concat_length (map snd (taggedChunks script))).
    change (text cap) with (snd (section cap, text cap)). now apply in_map.
Qed.

Lemma chunks_nonempty_trimmed_witness :
  lit "Second, try odeng soup." <> []
  /\ no_edge_space (lit "Second, try odeng soup.").
Proof.
  apply (proj1 chunks_nonempty_trimmed (body sampleScript)).
  vm_compute. right. left. reflexivity.
Defined.

(** C8.  In a sentence, a comma-delimited clause longer than [MAX_CHARS] is
    emitted as a chunk of its own, whole (only the white space around it is
    trimmed); the chunks of the comma branch are the trimmed buffers that
    the loop flushes, and no flushed buffer is empty. *)
Theorem long_clause_emitted_whole :
  forall (s p : jsstring),
    In p (commaParts s) -> (MAX_CHARS < length p)%nat ->
    In (trim p) (chunkSentence s)
    /\ core (trim p) = core p /\ strip_ws (trim p) = strip_ws p
    /\ chunkSentence s = map trim (flushedBuffers s)
    /\ Forall (fun b => b <> []) (flushedBuffers s).
Proof.
  intros s p Hin Hlen.
  pose proof (commaParts_length _ _ Hin) as Hs.
  assert (E : (length s <=? MAX_CHARS) = false) by (apply Nat.leb_gt; lia).
  unfold chunkSentence, flushedBuffers. rewrite E.
  split; [now apply accumulate_emits_long|].
  split; [apply core_trim|].
  split.
  - unfold trim, strip_ws.
    assert (A : forall x, filter (fun c => negb (is_space c)) (trimStart x)
                          = filter (fun c => negb (is_space c)) x).
    { induction x as [|c r IH]; auto. cbn [trimStart].
      destruct (is_space c) eqn:Ec; auto. simpl. now rewrite Ec. }
    assert (B : forall x, filter (fun c => negb (is_space c)) (trimEnd x)
                          = filter (fun c => negb (is_space c)) x).
    { induction x as [|c r IH]; auto. cbn [trimEnd].
      destruct (trimEnd r) as [|d r'] eqn:Er.
      - simpl in IH. destruct (is_space c) eqn:Ec; simpl; rewrite Ec; simpl;
          now rewrite <- IH.
      - cbn [filter] in *. destruct (negb (is_space c)); now rewrite IH. }
    now rewrite B, A.
  - split; [apply accumulate_post | apply accumulate_buffers_nonempty].
Qed.

Lemma long_clause_emitted_whole_witness :
  In longClause (chunkSentence longSentence)
  /\ Forall (fun b => b <> []) (flushedBuffers longSentence).
Proof.
  assert (Hin : In longClause (commaParts longSentence))
    by (vm_compute; left; reflexivity).
  assert (Hlen : (MAX_CHARS < length longClause)%nat)
    by (vm_compute; lia).
  pose proof (long_clause_emitted_whole longSentence longClause Hin Hlen)
    as [H1 [_ [_ [_ H2]]]].
  split; [exact H1 | exact H2].
Defined.

(** C3, as stated, fails: in the hook of [questionScript] the question mark
    that ends the first sentence comes back as a period, and the outro gains
    a period, so the caption texts differ from the script by more than white
    space. *)
Lemma section_text_not_preserved :
  exists caps,
    getTimedCaptions questionScript 12 = Some caps
    /\ sentences (hook questionScript) <> []
    /\ sentences (body questionScript) <> []
    /\ sentences (outro questionScript) <> []
    /\ strip_ws (sectionText Hook caps) <> strip_ws (hook questionScript)
    /\ strip_ws (sectionText Outro caps) <> strip_ws (outro questionScript).
Proof.
  eexists. split; [vm_compute; reflexivity|].
  repeat split; vm_compute; discriminate.
Qed.

(** C3, amended.  For every script and every section, concatenating the
    texts of the section's captions in order reproduces the section's text
    up to white space and sentence terminators: no character other than
    white space and [. ! ?] is added, removed or changed. *)
Theorem section_text_preserved :
  forall (script : ScriptContent) (duration : Q) (sec : Section),
    exists caps,
      getTimedCaptions script duration = Some caps
      /\ core (sectionText sec caps) = core (sectionOf sec script).
Proof.
  intros script duration sec.
  destruct (getTimedCaptions script duration) as [caps|] eqn:E;
    [|now apply getTimedCaptions_total in E].
  exists caps. split; [reflexivity|].
  erewrite sectionText_getTimedCaptions by eassumption.
  apply core_splitText.
Qed.

(* ================================================================== *)
(** * Scene selector *)

Section SelectorFacts.

Lemma find_exists : forall (A : Type) (p : A -> bool) l x,
  In x l -> p x = true -> exists y, find p l = Some y.
Proof.
  intros A p l x Hin Hp. destruct (find p l) as [y|] eqn:E; eauto.
  pose proof (find_none p l E x Hin). congruence.
Qed.

Lemma find_split : forall (A : Type) (p : A -> bool) l b,
  find p l = Some b ->
  exists pre post,
    l = pre ++ b :: post /\ p b = true /\ forall x, In x pre -> p x = false.
Proof.
  induction l as [|y l IH]; intros b H; [discriminate|]. simpl in H.
  destruct (p y) eqn:E.
  - inversion H; subst. exists [], l. repeat split; auto. contradiction.
  - destruct (IH _ H) as [pre [post [E1 [E2 E3]]]].
    exists (y :: pre), post. subst l. repeat split; auto.
    intros x [<-|Hx]; auto.
Qed.

Lemma num_or_some : forall q y, ~ q == 0 -> num_or (Some q) y = q.
Proof.
  intros q y H. simpl. destruct (Qeq_bool q 0) eqn:E; auto.
  apply Qeq_bool_eq in E. contradiction.
Qed.

Lemma num_or_zero : forall q, num_or (Some q) 0 == q.
Proof.
  intro q. simpl. destruct (Qeq_bool q 0) eqn:E; [|reflexivity].
  apply Qeq_bool_eq in E. now rewrite E.
Qed.

Lemma num_or_one_pos : forall q, 0 <= q -> 0 < num_or (Some q) 1.
Proof.
  intros q H. simpl. destruct (Qeq_bool q 0) eqn:E; [reflexivity|].
  apply Qeq_bool_neq in E. apply Qle_lt_or_eq in H.
  destruct H as [H|H]; auto. exfalso. apply E. now symmetry.
Qed.

(** With a body caption in a chain, the body bounds of [render] are the start
    of the first body caption and the end of the last one. *)
Lemma body_bounds : forall tl d c,
  chained 0 tl d -> In c tl -> is_body c = true ->
  bodyS tl <= startTime c /\ bodyS tl < bodyE tl d.
Proof.
  intros tl d c C Hin Hb.
  destruct (find_exists is_body tl c Hin Hb) as [b Eb].
  destruct (find_split is_body tl Eb) as [pre [post [Etl [Hbb Hpre]]]].
  assert (Hsuf : forall x, In x tl -> is_body x = true -> In x (b :: post)).
  { intros x Hx Hxb. rewrite Etl in Hx. apply in_app_or in Hx.
    destruct Hx as [Hx|Hx]; auto. apply Hpre in Hx. congruence. }
  rewrite Etl in C. apply chained_suffix in C. destruct C as [m [Hm C]].
  assert (Hs : bodyS tl == startTime b).
  { unfold bodyS. rewrite Eb. apply num_or_zero. }
  assert (Hmb : startTime b == m) by (simpl in C; tauto).
  assert (Hin' : In c (rev tl)) by now apply in_rev in Hin.
  destruct (find_exists is_body (rev tl) c Hin' Hb) as [b' Eb'].
  pose proof (find_some _ _ Eb') as [Hb'in Hb'b].
  apply in_rev in Hb'in.
  assert (m <= startTime b' /\ startTime b' < endTime b' /\ endTime b' <= d)
    as [A1 [A2 A3]] by (eapply chained_In; eauto).
  assert (m <= startTime c /\ startTime c < endTime c /\ endTime c <= d)
    as [B1 _] by (eapply chained_In; eauto).
  assert (He : bodyE tl d = endTime b').
  { unfold bodyE. rewrite Eb'. apply num_or_some. intro Z0.
    lra. }
  split.
  - lra.
  - rewrite He. lra.
Qed.

Lemma prog_nonneg : forall tl d t,
  bodyS tl <= t -> bodyS tl <= bodyE tl d -> 0 <= prog tl d t.
Proof.
  intros tl d t H1 H2. unfold prog.
  apply Qle_shift_div_l.
  - apply num_or_one_pos. lra.
  - lra.
Qed.

Lemma interior_index_range : forall (p : Q) (n : Z),
  0 <= p -> (2 <= n)%Z ->
  (0 <= 1 + Z.min (Qfloor (p * inject_Z (n - 2))) (n - 2 - 1) <= n - 1)%Z.
Proof.
  intros p n Hp Hn.
  assert (H : (0 <= Qfloor (p * inject_Z (n - 2)))%Z).
  { change 0%Z with (Qfloor 0). apply Qfloor_resp_le.
    apply Qmult_le_0_compat; auto.
    change 0 with (inject_Z 0). rewrite <- Zle_Qle. lia. }
  lia.
Qed.

Lemma selectCaption_bounds : forall tl d t c,
  chained 0 tl d -> 0 <= t ->
  selectCaption tl t = Some c -> In c tl /\ startTime c <= t.
Proof.
  intros tl d t c C Ht H. unfold selectCaption in H.
  destruct (find _ tl) as [x|] eqn:E.
  - inversion H; subst x. apply find_some in E. destruct E as [Hin Hx].
    apply andb_prop in Hx. destruct Hx as [Hx _].
    split; auto. now apply Qle_bool_iff.
  - assert (Hd : d <= t) by (eapply chained_find; eauto).
    assert (Hin : In c tl) by now apply last_opt_In.
    split; auto.
    assert (0 <= startTime c /\ startTime c < endTime c /\ endTime c <= d)
      as [_ [A B]] by (eapply chained_In; eauto).
    lra.
Qed.

End SelectorFacts.

(** The timelines that [render] receives are valid, and on a valid timeline
    the body bounds never coincide. *)
Lemma getTimedCaptions_valid : forall script d caps,
  0 < d -> getTimedCaptions script d = Some caps -> valid_timeline d caps.
Proof.
  intros script d caps Hd H. split; [exact Hd|].
  destruct (Z.eq_dec (totalCharsOf script) 0) as [E|E].
  - rewrite getTimedCaptions_zero in H by assumption. left. congruence.
  - right. eapply getTimedCaptions_chained; eauto.
    unfold totalCharsOf in *. lia.
Qed.

Lemma valid_body_bounds_distinct : forall tl d,
  valid_timeline d tl -> bodyS tl < bodyE tl d.
Proof.
  intros tl d [Hd [->|C]]; [exact Hd|].
  destruct (find is_body tl) as [b|] eqn:Eb.
  - apply find_some in Eb. destruct Eb as [Hin Hb].
    eapply body_bounds; eauto.
  - assert (Er : find is_body (rev tl) = None).
    { destruct (find is_body (rev tl)) as [x|] eqn:Ex; auto.
      apply find_some in Ex. destruct Ex as [Hx Hxb]. apply in_rev in Hx.
      pose proof (find_none _ _ Eb x Hx). congruence. }
    unfold bodyS, bodyE. rewrite Eb, Er. exact Hd.
Qed.

(** The scenarios of the design notes. *)
Example scenario_chunks :
  map (fun sec => length (splitText (sectionOf sec sampleScript)))
      [Hook; Body; Outro]
  = [1; 2; 1]%nat.
Proof. reflexivity. Qed.

Example scenario_interior_index :
  prog sampleTimeline 12 (11 # 2) == 1 # 2
  /\ selectImageIndex sampleTimeline 12 (11 # 2) 5 = 2%Z.
Proof. split; reflexivity. Qed.

Example scenario_single_scene :
  selectImageIndex sampleTimeline 12 1 1 = 0%Z
  /\ selectImageIndex sampleTimeline 12 10 1 = 0%Z.
Proof. split; reflexivity. Qed.

(** C1, as stated, fails: with a single image and a body caption selected,
    the index is [-1]. *)
Lemma image_index_out_of_range :
  exists caps,
    getTimedCaptions sampleScript 12 = Some caps
    /\ 0 <= 6 <= 12
    /\ selectImageIndex caps 12 6 1 = (-1)%Z
    /\ ~ (0 <= selectImageIndex caps 12 6 1 <= 1 - 1)%Z.
Proof.
  eexists. split; [vm_compute; reflexivity|].
  split; [split; discriminate|].
  split; [vm_compute; reflexivity|].
  vm_compute. intros [H _]. now apply H.
Qed.

(** C1, amended.  For every timeline that is empty or partitions
    [[0, duration]], every time in [[0, duration]] and every image count of
    at least 2, the selected image index lies in [[0, imagesLength - 1]];
    with a single image it does so when the selected caption is tagged hook
    or outro. *)
Theorem image_index_in_range :
  forall (tl : list TimedCaption) (duration time : Q) (imagesLength : Z),
    valid_timeline duration tl ->
    0 <= time <= duration ->
    (1 <= imagesLength)%Z ->
    (2 <= imagesLength)%Z \/ ~ in_body_branch tl time ->
    (0 <= selectImageIndex tl duration time imagesLength <= imagesLength - 1)%Z.
Proof.
  intros tl d t n [Hd Hv] [Ht0 Htd] Hn Hcase.
  unfold selectImageIndex, in_body_branch in *.
  assert (Hempty : tl = [] -> 0 <= prog tl d t).
  { intros ->. apply prog_nonneg; unfold bodyS, bodyE; simpl; lra. }
  destruct (selectCaption tl t) as [c|] eqn:E; cbn [option_map] in *.
  - destruct (section c) eqn:Es; try lia.
    assert (Hn2 : (2 <= n)%Z) by tauto.
    apply interior_index_range; auto.
    destruct Hv as [Hv|C]; [auto|].
    assert (In c tl /\ startTime c <= t) as [Hin Hst]
      by (eapply selectCaption_bounds; eauto).
    assert (Hb : is_body c = true) by (unfold is_body; now rewrite Es).
    assert (bodyS tl <= startTime c /\ bodyS tl < bodyE tl d) as [B1 B2]
      by (eapply body_bounds; eauto).
    apply prog_nonneg; lra.
  - assert (Hn2 : (2 <= n)%Z) by tauto.
    apply interior_index_range; auto. apply Hempty.
    unfold selectCaption in E. destruct (find _ tl); [discriminate|].
    unfold last_opt in E. destruct (rev tl) eqn:Er; [|discriminate].
    apply (f_equal (@rev _)) in Er. now rewrite rev_involutive in Er.
Qed.

Lemma image_index_in_range_witness :
  (0 <= selectImageIndex sampleTimeline 12 (11 # 2) 5 <= 5 - 1)%Z.
Proof.
  apply image_index_in_range.
  - split; [reflexivity|]. right. simpl. repeat split; reflexivity.
  - split; discriminate.
  - lia.
  - left. lia.
Defined.

(* ================================================================== *)
(** * Capture pipeline *)

Section CaptureFacts.

Lemma set_nth_fresh : forall (A : Type) (l : list A) (x y : A),
  set_nth (length l) x (l ++ [y]) = l ++ [x].
Proof. induction l as [|z l IH]; intros x y; simpl; [|rewrite IH]; reflexivity. Qed.

Lemma recording_stop : forall rs r,
  nth r rs Inactive = Recording ->
  (length (filter (RecorderState_eqb Recording) (set_nth r Inactive rs)) + 1
   = length (filter (RecorderState_eqb Recording) rs))%nat.
Proof.
  induction rs as [|x rs IH]; intros r H.
  - destruct r; discriminate.
  - destruct r as [|r]; simpl in *.
    + subst x. simpl. lia.
    + specialize (IH r H). destruct x; simpl; lia.
Qed.

Lemma mem_nat_In : forall r l, mem_nat r l = true -> In r l.
Proof.
  intros r l H. unfold mem_nat in H. apply existsb_exists in H.
  destruct H as [x [Hx E]]. apply Nat.eqb_eq in E. now subst.
Qed.

Lemma commit_noPending : forall w, commit (w, noPending) = w.
Proof.
  intros [a b c d e f g]. unfold commit. simpl.
  rewrite Bool.eqb_reflx, andb_false_r. reflexivity.
Qed.

Lemma export_rejected : forall w,
  negb (canvas w) || isExporting w = true ->
  exportVideo w = [] /\ handle ClickExport w = w.
Proof.
  intros w H. unfold handle, exportVideo. rewrite H. simpl.
  split; [reflexivity | apply commit_noPending].
Qed.

(** What an accepted request leaves behind. *)
Lemma export_accepted : forall w,
  canvas w = true -> isExporting w = false ->
  let w1 := handle ClickExport w in
  isExporting w1 = true
  /\ recorders w1 = recorders w ++ [Recording]
  /\ stopEvents w1 = stopEvents w
  /\ canvas w1 = true
  /\ isPlaying w1 = (match audio w with Some _ => true | None => false end)
  /\ timers w1 = (match audio w with
                  | Some _ => timers w
                  | None => timers w ++ [length (recorders w)]
                  end)
  /\ option_map currentTime (audio w1) = option_map (fun _ => 0) (audio w)
  /\ option_map onended (audio w1)
     = option_map (fun _ => Some (length (recorders w))) (audio w).
Proof.
  intros [ex pl cv au rs ts se] Hc He. simpl in Hc, He. subst cv ex.
  unfold handle, exportVideo. cbn [canvas isExporting negb orb recorders audio].
  destruct au as [a|]; destruct pl; cbn; rewrite set_nth_fresh;
    repeat split; reflexivity.
Qed.

Lemma inv_exec_quiet : forall c w p,
  quiet c -> capture_inv w ->
  capture_inv (fst (exec c (w, p)))
  /\ nextExporting (snd (exec c (w, p))) = nextExporting p.
Proof.
  intros c [ex pl cv au rs ts se] p Hq [I1 I2].
  destruct c; try contradiction; unfold capture_inv, active, exec,
    recorderState, withAudio in *; cbn [isExporting recorders stopEvents] in *.
  - split; [split; assumption | reflexivity].
  - destruct (nth r rs Inactive) eqn:E;
      cbn [fst snd isExporting recorders stopEvents].
    + split; [split; assumption | reflexivity].
    + pose proof (recording_stop rs r E) as Hs. rewrite length_app. simpl.
      split; [|reflexivity]. split; [|lia].
      intro Hex. destruct (I1 Hex) as [A _]. lia.
  - split; [split; assumption | reflexivity].
  - split; [split; assumption | reflexivity].
  - split; [split; assumption | reflexivity].
Qed.

Lemma inv_commit : forall w p,
  nextExporting p = None -> capture_inv w -> capture_inv (commit (w, p)).
Proof.
  intros [ex pl cv au rs ts se] [ne np] Hp H. simpl in Hp. subst ne.
  unfold commit, capture_inv, active in *. cbn in *. exact H.
Qed.

Lemma inv_run_quiet : forall cs w p,
  Forall quiet cs -> nextExporting p = None -> capture_inv w ->
  capture_inv (commit (run cs (w, p))).
Proof.
  induction cs as [|c cs IH]; intros w p Hq Hp H; cbn [run fold_left].
  - now apply inv_commit.
  - inversion Hq as [|? ? Hc Hcs]; subst.
    destruct (@inv_exec_quiet c w p Hc H) as [Hi Hn].
    destruct (exec c (w, p)) as [w' p']. cbn [fst snd] in *.
    apply IH; auto. congruence.
Qed.

Lemma inv_handle : forall e w, capture_inv w -> capture_inv (handle e w).
Proof.
  intros e w H. destruct e as [| | |r|r]; unfold handle.
  - destruct (negb (canvas w) || isExporting w) eqn:G.
    + destruct (export_rejected w G) as [_ E]. unfold handle in E. now rewrite E.
    + apply orb_false_elim in G. destruct G as [Gc Ge].
      apply negb_false_iff in Gc.
      destruct (export_accepted w Gc Ge) as [A1 [A2 [A3 _]]].
      unfold handle in *. destruct H as [I1 I2]. destruct (I1 Ge) as [B1 B2].
      unfold capture_inv, active in *. rewrite A1, A2, A3, B2.
      rewrite filter_app, length_app, B1. simpl. split; [discriminate | lia].
  - destruct (canvas w); [|exact H].
    apply inv_run_quiet; [repeat constructor | reflexivity | exact H].
  - destruct (audio w) as [a|]; [|exact H].
    apply inv_run_quiet; [|reflexivity | exact H].
    destruct (onended a); repeat constructor.
  - destruct (mem_nat r (timers w)); [|exact H].
    apply inv_run_quiet; [repeat constructor | reflexivity |].
    destruct w; exact H.
  - destruct (mem_nat r (stopEvents w)) eqn:M; [|exact H].
    apply mem_nat_In in M.
    pose proof (remove_length_lt Nat.eq_dec (stopEvents w) r M) as Hlt.
    destruct w as [ex pl cv au rs ts se]. destruct H as [I1 I2].
    unfold capture_inv, active, commit, remove_nat in *. cbn in *.
    assert (Hl : length (remove Nat.eq_dec r se) = 0%nat) by lia.
    destruct (remove Nat.eq_dec r se); [|discriminate].
    split; [|lia]. intros _. split; [lia | reflexivity].
Qed.

Lemma reachable_inv : forall w, reachable w -> capture_inv w.
Proof.
  induction 1 as [w [H1 [H2 [H3 [H4 [H5 H6]]]]]|w e Hr IH].
  - unfold capture_inv, active. rewrite H3, H5. simpl. split; auto.
  - now apply inv_handle.
Qed.

End CaptureFacts.

Section CaptureRuns.

Lemma nth_set_nth : forall (A : Type) (l : list A) r x,
  nth r (set_nth r x l) x = x.
Proof.
  induction l as [|y l IH]; intros r x.
  - now destruct r.
  - destruct r as [|r]; simpl; auto.
Qed.

Lemma export_starts_audio : forall w,
  canvas w = true -> isExporting w = false -> isPlaying w = false ->
  option_map paused (audio (handle ClickExport w))
  = option_map (fun _ => false) (audio w).
Proof.
  intros [ex pl cv au rs ts se] Hc He Hp. simpl in Hc, He, Hp. subst.
  destruct au; reflexivity.
Qed.

Lemma ended_stops : forall w a r,
  audio w = Some a -> onended a = Some r -> recorderState w r = Recording ->
  recorderState (handle AudioEnded w) r = Inactive
  /\ In r (stopEvents (handle AudioEnded w)).
Proof.
  intros [ex pl cv au rs ts se] a r Ha Ho Hr. simpl in Ha. subst au.
  unfold recorderState in Hr. simpl in Hr.
  unfold handle. cbn [audio]. rewrite Ho.
  cbn [app onendedHandler run fold_left].
  cbn [exec noPending nextExporting nextPlaying].
  unfold recorderState. cbn [recorders]. rewrite Hr.
  cbn [exec withAudio commit isExporting isPlaying canvas audio recorders
       timers stopEvents nextExporting nextPlaying].
  unfold recorderState. cbn [recorders stopEvents]. split.
  - apply nth_set_nth.
  - apply in_or_app. right. now left.
Qed.

Lemma ended_clears_playing : forall w,
  audio w <> None -> isPlaying (handle AudioEnded w) = false.
Proof.
  intros [ex pl cv au rs ts se] Ha. simpl in Ha.
  destruct au as [a|]; [|congruence]. unfold handle. cbn [audio].
  destruct (onended a) as [r|]; cbn [app onendedHandler run fold_left].
  - cbn [exec noPending nextExporting nextPlaying]. unfold recorderState.
    cbn [recorders]. destruct (nth r rs Inactive); reflexivity.
  - reflexivity.
Qed.

Lemma timer_stops : forall w r,
  mem_nat r (timers w) = true -> recorderState w r = Recording ->
  recorderState (handle (TimerFires r) w) r = Inactive.
Proof.
  intros [ex pl cv au rs ts se] r Hm Hr. unfold recorderState in Hr.
  simpl in Hm, Hr. unfold handle. cbn [timers]. rewrite Hm.
  cbn [run fold_left exec isExporting isPlaying canvas audio recorders
       timers stopEvents].
  unfold recorderState. cbn [recorders]. rewrite Hr.
  cbn [commit isExporting isPlaying canvas audio recorders timers stopEvents
       nextExporting nextPlaying noPending].
  cbn [recorders]. apply nth_set_nth.
Qed.

End CaptureRuns.

(** C5, as stated, fails: from a paused session the recorder is started
    while the scheduler is not in [Playing]: the committed flag is false,
    the audio element is paused, and the update queued just before
    [recorder.start()] is [setIsPlaying(false)]. *)
Lemma recorder_starts_before_playing :
  exportVideo pausedWorld
  = [SetIsExporting true; SetIsPlaying false; NewRecorder]
    ++ RecorderStart 0
    :: [AudioSetCurrentTime 0; SetIsPlaying true; AudioSetOnended (Some 0%nat)]
  /\ (let before := run [SetIsExporting true; SetIsPlaying false; NewRecorder]
                        (pausedWorld, noPending) in
      scheduler_playing (fst before) = false
      /\ nextPlaying (snd before) = Some false
      /\ recorderState (fst (exec (RecorderStart 0) before)) 0 = Recording
      /\ scheduler_playing (fst (exec (RecorderStart 0) before)) = false).
Proof. repeat split. Qed.

(** C5, amended.  An accepted export starts the recorder inside the request
    handler, before [setIsPlaying(true)] is issued: at that point the flag
    is as the request found it and the queued update is
    [setIsPlaying(false)]; the scheduler is in [Playing] once the handler has
    returned.  With an audio element no timeout is set and the ['ended']
    event, which clears the playing flag, stops the recorder; without one the
    flag stays cleared and the timeout set by the handler stops the
    recorder. *)
Theorem capture_protocol :
  forall w : World,
    canvas w = true -> isExporting w = false ->
    let r := length (recorders w) in
    let w1 := handle ClickExport w in
    (exists pre post,
        exportVideo w = pre ++ RecorderStart r :: post
        /\ ~ In (SetIsPlaying true) pre
        /\ (let s := run (pre ++ [RecorderStart r]) (w, noPending) in
            recorderState (fst s) r = Recording
            /\ isPlaying (fst s) = isPlaying w
            /\ nextPlaying (snd s) = Some false))
    /\ recorderState w1 r = Recording
    /\ (forall a, audio w = Some a ->
          isPlaying w1 = true /\ timers w1 = timers w
          /\ (isPlaying w = false -> scheduler_playing w1 = true)
          /\ recorderState (handle AudioEnded w1) r = Inactive
          /\ In r (stopEvents (handle AudioEnded w1))
          /\ isPlaying (handle AudioEnded w1) = false)
    /\ (audio w = None ->
          isPlaying w1 = false /\ timers w1 = timers w ++ [r]
          /\ handle AudioEnded w1 = w1
          /\ recorderState (handle (TimerFires r) w1) r = Inactive).
Proof.
  intros w Hc He r w1.
  destruct (export_accepted w Hc He)
    as [A1 [A2 [A3 [A4 [A5 [A6 [A7 A8]]]]]]].
  fold w1 in A1, A2, A3, A4, A5, A6, A7, A8.
  assert (Hrec : recorderState w1 r = Recording).
  { unfold recorderState. rewrite A2. apply nth_middle. }
  split; [|split; [exact Hrec|split]].
  - exists [SetIsExporting true; SetIsPlaying false; NewRecorder].
    exists (match audio w with
            | Some _ => [AudioSetCurrentTime 0; SetIsPlaying true;
                         AudioSetOnended (Some r)]
            | None => [SetTimeoutStop r 5000]
            end).
    split; [|split].
    + unfold exportVideo. rewrite Hc, He. reflexivity.
    + intros [H|[H|[H|[]]]]; discriminate.
    + destruct w as [ex pl cv au rs ts se]. cbn. unfold recorderState. cbn.
      subst r. cbn. rewrite set_nth_fresh. repeat split. apply nth_middle.
  - intros a Ha. rewrite Ha in A5, A6, A7, A8.
    destruct (audio w1) as [a1|] eqn:Ea1; [|discriminate].
    simpl in A7, A8. inversion A8 as [Ho].
    assert (Hne : audio w1 <> None) by congruence.
    destruct (ended_stops w1 Ea1 Ho Hrec) as [S1 S2].
    repeat split; auto.
    + intro Hp. pose proof (export_starts_audio w Hc He Hp) as P.
      fold w1 in P. rewrite Ea1, Ha in P. simpl in P. inversion P as [P1].
      unfold scheduler_playing. now rewrite A5, Ea1, P1.
    + now apply ended_clears_playing.
  - intro Ha. rewrite Ha in A5, A6, A7.
    assert (Hno : audio w1 = None) by (destruct (audio w1); [discriminate|reflexivity]).
    repeat split; auto.
    + unfold handle. now rewrite Hno.
    + apply timer_stops; auto. rewrite A6. unfold mem_nat.
      rewrite existsb_app. simpl. now rewrite Nat.eqb_refl, orb_true_r.
Qed.

Lemma capture_protocol_witness :
  recorderState (handle ClickExport pausedWorld) 0 = Recording
  /\ recorderState (handle AudioEnded (handle ClickExport pausedWorld)) 0
     = Inactive
  /\ recorderState (handle (TimerFires 0) (handle ClickExport silentWorld)) 0
     = Inactive.
Proof.
  pose proof (@capture_protocol pausedWorld eq_refl eq_refl)
    as [_ [H1 [H2 _]]].
  pose proof (@capture_protocol silentWorld eq_refl eq_refl)
    as [_ [_ [_ H3]]].
  split; [exact H1|]. split.
  - exact (proj1 (proj2 (proj2 (proj2 (H2 _ eq_refl))))).
  - exact (proj2 (proj2 (proj2 (H3 eq_refl)))).
Defined.

(** C6.  In every state that a session reaches at most one recorder records;
    while one does, [isExporting] is set; and a request that finds
    [isExporting] set performs no effect at all (no recorder is created or
    started) and leaves the state, the capture in flight included, as it
    was. *)
Theorem concurrent_export_rejected :
  forall w : World,
    reachable w ->
    (active w <= 1)%nat
    /\ ((1 <= active w)%nat -> isExporting w = true)
    /\ (isExporting w = true ->
        exportVideo w = [] /\ handle ClickExport w = w
        /\ active (handle ClickExport w) = active w).
Proof.
  intros w Hr. destruct (reachable_inv Hr) as [I1 I2].
  split; [lia|]. split.
  - intro Ha. destruct (isExporting w) eqn:E; auto.
    destruct (I1 eq_refl) as [Z0 _]. lia.
  - intro He.
    assert (G : negb (canvas w) || isExporting w = true)
      by (rewrite He; apply orb_true_r).
    destruct (export_rejected w G) as [E1 E2].
    repeat split; auto. now rewrite E2.
Qed.

Lemma concurrent_export_rejected_witness :
  active (handle ClickExport pausedWorld) = 1%nat
  /\ handle ClickExport (handle ClickExport pausedWorld)
     = handle ClickExport pausedWorld.
Proof.
  assert (Hr : reachable (handle ClickExport pausedWorld)).
  { apply reach_step. apply reach_init. repeat split. }
  split; [reflexivity|].
  exact (proj1 (proj2 (proj2 (proj2 (concurrent_export_rejected Hr)) eq_refl))).
Defined.




(* ================================================================== *)
(** * Resilience wrapper *)

Section RetryFacts.

Variable V : Type.
Variable fn : nat -> Retry.Outcome V.
Variable random : nat -> Q.

Lemma loop_bounds : forall remaining i lastError,
  let r := Retry.loop fn random remaining i lastError in
  (Retry.calls r <= remaining)%nat
  /\ (length (Retry.delays r) <= Retry.calls r)%nat
  /\ (Retry.keyCleared r = true <-> Retry.completion r = Retry.Throw Retry.KeyInvalid)
  /\ (forall v, Retry.completion r = Retry.Return v ->
        exists k, (k < remaining)%nat /\ fn (i + k) = Retry.Resolved v).
Proof.
  induction remaining as [|k IH]; intros i lastError; cbn [Retry.loop].
  - cbn. repeat split; try lia; try discriminate.
  - destruct (fn i) as [v|err] eqn:E.
    + cbn. repeat split; try lia; try discriminate.
      intros v' H. inversion H; subst. exists 0%nat.
      rewrite Nat.add_0_r. split; [lia | exact E].
    + destruct (Retry.isKeyError err).
      * cbn. repeat split; try lia; auto; discriminate.
      * destruct (Retry.isRateLimit err).
        -- destruct (IH (S i) (Some err)) as [A [B [C D]]].
           cbn [Retry.completion Retry.calls Retry.delays Retry.keyCleared length].
           repeat split; try lia; try apply C.
           intros v Hv. destruct (D v Hv) as [j [Hj Ej]].
           exists (S j). split; [lia|]. now rewrite Nat.add_succ_r.
        -- cbn. repeat split; try lia; try discriminate.
Qed.

(** While the attempts are rate-limited the loop sleeps and goes on. *)
Lemma loop_skip : forall k remaining i lastError,
  (forall j, (j < k)%nat -> rateLimitedAt fn (i + j)) ->
  (k <= remaining)%nat ->
  exists last',
    (k = 0%nat -> last' = lastError)
    /\ ((0 < k)%nat ->
        exists err, last' = Some err /\ fn (i + k - 1) = Retry.Rejected err)
    /\ let r := Retry.loop fn random (remaining - k) (i + k) last' in
       Retry.loop fn random remaining i lastError
       = Retry.mkRun (Retry.completion r) (k + Retry.calls r)
                     (map (Retry.delayAt random) (seq i k) ++ Retry.delays r)
                     (Retry.keyCleared r).
Proof.
  induction k as [|k IH]; intros remaining i lastError Hlim Hle.
  - exists lastError. rewrite Nat.sub_0_r, Nat.add_0_r. cbn.
    repeat split; auto; try lia. now destruct (Retry.loop _ _ _ _ _).
  - destruct remaining as [|remaining]; [lia|].
    destruct (Hlim 0%nat ltac:(lia)) as [err [E [Hk Hr]]].
    rewrite Nat.add_0_r in E.
    destruct (IH remaining (S i) (Some err)) as [last' [L0 [L1 L2]]];
      [|lia|].
    { intros j Hj. replace (S i + j)%nat with (i + S j)%nat by lia.
      apply Hlim. lia. }
    exists last'. split; [lia|]. split.
    + intros _. destruct k as [|k].
      * exists err. rewrite (L0 eq_refl). split; auto.
        replace (i + 1 - 1)%nat with i by lia. exact E.
      * destruct (L1 ltac:(lia)) as [e' [E1 E2]]. exists e'. split; auto.
        replace (i + S (S k) - 1)%nat with (S i + S k - 1)%nat by lia.
        exact E2.
    + cbn [Retry.loop]. rewrite E, Hk, Hr.
      replace (S remaining - S k)%nat with (remaining - k)%nat by lia.
      replace (i + S k)%nat with (S i + k)%nat by lia.
      cbv zeta in L2. rewrite L2.
      cbn [Retry.completion Retry.calls Retry.delays Retry.keyCleared seq map app].
      reflexivity.
Qed.

End RetryFacts.

Lemma loop_delays : forall (V : Type) (fn : nat -> Retry.Outcome V) random
                           remaining i lastError,
  exists m,
    Retry.delays (Retry.loop fn random remaining i lastError)
    = map (Retry.delayAt random) (seq i m).
Proof.
  intros V fn random. induction remaining as [|k IH]; intros i lastError;
    cbn [Retry.loop].
  - exists 0%nat. reflexivity.
  - destruct (fn i) as [v|err]; [exists 0%nat; reflexivity|].
    destruct (Retry.isKeyError err); [exists 0%nat; reflexivity|].
    destruct (Retry.isRateLimit err); [|exists 0%nat; reflexivity].
    destruct (IH (S i) (Some err)) as [m Hm]. exists (S m).
    cbn [Retry.delays seq map]. now rewrite Hm.
Qed.

(** X1.  [callWithRetry] never invokes [fn] more than [maxRetries] times and
    never sleeps more often than it invokes [fn]; it calls
    [setHasKey(false)] exactly when it throws the key error; and a value it
    returns is the value some invocation of [fn] resolved to. *)
Theorem callWithRetry_bounded :
  forall (V : Type) (fn : nat -> Retry.Outcome V) (random : nat -> Q)
         (maxRetries : nat),
    let r := Retry.callWithRetry fn random maxRetries in
    (Retry.calls r <= maxRetries)%nat
    /\ (length (Retry.delays r) <= Retry.calls r)%nat
    /\ (Retry.keyCleared r = true
        <-> Retry.completion r = Retry.Throw Retry.KeyInvalid)
    /\ (forall v, Retry.completion r = Retry.Return v ->
          exists k, (k < maxRetries)%nat /\ fn k = Retry.Resolved v).
Proof.
  intros V fn random maxRetries. unfold Retry.callWithRetry.
  apply (@loop_bounds V fn random maxRetries 0%nat None).
Qed.

Lemma callWithRetry_bounded_witness :
  exists k, (k < 3)%nat /\ flakyCall k = Retry.Resolved 7%nat.
Proof.
  apply (proj2 (proj2 (proj2 (callWithRetry_bounded flakyCall halfRandom 3)))).
  reflexivity.
Defined.

(** X2.  When the first [k] attempts are rejected as rate-limited and
    attempt [k] (with [k < maxRetries]) resolves, [callWithRetry] returns
    that value after [k + 1] invocations, having slept once after each
    failed attempt, and leaves the key state alone. *)
Theorem callWithRetry_first_success :
  forall (V : Type) (fn : nat -> Retry.Outcome V) (random : nat -> Q)
         (maxRetries k : nat) (v : V),
    (k < maxRetries)%nat ->
    (forall j, (j < k)%nat -> rateLimitedAt fn j) ->
    fn k = Retry.Resolved v ->
    Retry.callWithRetry fn random maxRetries
    = Retry.mkRun (Retry.Return v) (k + 1)
                  (map (Retry.delayAt random) (seq 0 k)) false.
Proof.
  intros V fn random n k v Hk Hlim Hv. unfold Retry.callWithRetry.
  destruct (@loop_skip V fn random k n 0%nat None Hlim ltac:(lia))
    as [last' [_ [_ H]]].
  cbv zeta in H. rewrite H. cbn [Nat.add].
  destruct (n - k)%nat as [|m] eqn:E; [lia|].
  cbn [Retry.loop]. rewrite Hv. cbn. now rewrite app_nil_r.
Qed.

Lemma callWithRetry_first_success_witness :
  Retry.callWithRetry flakyCall halfRandom 3
  = Retry.mkRun (Retry.Return 7%nat) (2 + 1)
                (map (Retry.delayAt halfRandom) (seq 0 2)) false.
Proof.
  refine (@callWithRetry_first_success nat flakyCall halfRandom 3 2 7%nat _ _ _).
  - lia.
  - intros j Hj. exists quotaError.
    destruct j as [|[|j]]; [| |lia]; repeat split.
  - reflexivity.
Defined.

(** X3.  An error that is neither rate-limited nor a key error is rethrown
    at once: [fn] is not invoked again and nothing more is slept.  A key
    error (message with "Requested entity was not found") clears the key
    state and is replaced by the key error of the wrapper, even when it also
    looks rate-limited. *)
Theorem callWithRetry_no_retry_on_other_errors :
  forall (V : Type) (fn : nat -> Retry.Outcome V) (random : nat -> Q)
         (maxRetries k : nat) (err : Retry.JsError),
    (k < maxRetries)%nat ->
    (forall j, (j < k)%nat -> rateLimitedAt fn j) ->
    fn k = Retry.Rejected err ->
    Retry.isKeyError err = true \/ Retry.isRateLimit err = false ->
    Retry.callWithRetry fn random maxRetries
    = Retry.mkRun
        (if Retry.isKeyError err then Retry.Throw Retry.KeyInvalid
         else Retry.Throw (Retry.Raised (Some err)))
        (k + 1) (map (Retry.delayAt random) (seq 0 k))
        (Retry.isKeyError err).
Proof.
  intros V fn random n k err Hk Hlim He Hcls. unfold Retry.callWithRetry.
  destruct (@loop_skip V fn random k n 0%nat None Hlim ltac:(lia))
    as [last' [_ [_ H]]].
  cbv zeta in H. rewrite H. cbn [Nat.add].
  destruct (n - k)%nat as [|m] eqn:E; [lia|].
  cbn [Retry.loop]. rewrite He.
  destruct (Retry.isKeyError err) eqn:Ek.
  - cbn. now rewrite app_nil_r.
  - destruct Hcls as [Hc|Hc]; [discriminate|]. rewrite Hc. cbn.
    now rewrite app_nil_r.
Qed.

Lemma callWithRetry_no_retry_on_other_errors_witness :
  Retry.callWithRetry failingCall halfRandom 3
  = Retry.mkRun (Retry.Throw (Retry.Raised (Some serverError))) (1 + 1)
                (map (Retry.delayAt halfRandom) (seq 0 1)) false
  /\ Retry.callWithRetry lostKeyCall halfRandom 3
     = Retry.mkRun (Retry.Throw Retry.KeyInvalid) (1 + 1)
                   (map (Retry.delayAt halfRandom) (seq 0 1)) true.
Proof.
  split.
  - refine (@callWithRetry_no_retry_on_other_errors nat failingCall halfRandom
              3 1 serverError _ _ _ _).
    + lia.
    + intros j Hj. exists quotaError. destruct j; [|lia]. repeat split.
    + reflexivity.
    + right. reflexivity.
  - refine (@callWithRetry_no_retry_on_other_errors nat lostKeyCall halfRandom
              3 1 keyError _ _ _ _).
    + lia.
    + intros j Hj. exists quotaError. destruct j; [|lia]. repeat split.
    + reflexivity.
    + left. reflexivity.
Defined.

(** X4.  When every one of the [maxRetries] attempts is rate-limited,
    [callWithRetry] throws the error of the last attempt ([undefined] when
    [maxRetries] is 0) after exactly [maxRetries] invocations and
    [maxRetries] sleeps: it sleeps after the last failed attempt too. *)
Theorem callWithRetry_exhausted :
  forall (V : Type) (fn : nat -> Retry.Outcome V) (random : nat -> Q)
         (maxRetries : nat),
    (forall j, (j < maxRetries)%nat -> rateLimitedAt fn j) ->
    exists last,
      Retry.callWithRetry fn random maxRetries
      = Retry.mkRun (Retry.Throw (Retry.Raised last)) maxRetries
                    (map (Retry.delayAt random) (seq 0 maxRetries)) false
      /\ (maxRetries = 0%nat -> last = None)
      /\ ((0 < maxRetries)%nat ->
          exists err, last = Some err
                      /\ fn (maxRetries - 1)%nat = Retry.Rejected err).
Proof.
  intros V fn random n Hlim. unfold Retry.callWithRetry.
  destruct (@loop_skip V fn random n n 0%nat None Hlim (le_n n))
    as [last' [L0 [L1 H]]].
  exists last'. cbv zeta in H. rewrite H, Nat.sub_diag. cbn [Nat.add].
  cbn [Retry.loop Retry.completion Retry.calls Retry.delays Retry.keyCleared].
  rewrite Nat.add_0_r, app_nil_r. repeat split; auto.
Qed.

Lemma callWithRetry_exhausted_witness :
  exists last,
    Retry.callWithRetry alwaysLimited halfRandom 3
    = Retry.mkRun (Retry.Throw (Retry.Raised last)) 3
                  (map (Retry.delayAt halfRandom) (seq 0 3)) false
    /\ (3%nat = 0%nat -> last = None)
    /\ ((0 < 3)%nat ->
        exists err, last = Some err
                    /\ alwaysLimited (3 - 1)%nat = Retry.Rejected err).
Proof.
  apply (@callWithRetry_exhausted nat alwaysLimited halfRandom 3).
  intros j _. exists quotaError. repeat split.
Defined.

(** X5.  Exponential backoff: for [Math.random()] in [[0, 1)], the sleep
    after the [i]-th failed attempt lasts at least [1500 * 2^i] and at most
    [1500 * 2^i + 1000] milliseconds, whatever [fn] does. *)
Theorem callWithRetry_backoff :
  forall (V : Type) (fn : nat -> Retry.Outcome V) (random : nat -> Q)
         (maxRetries i : nat) (d : Q),
    (forall j, 0 <= random j /\ random j < 1) ->
    nth_error (Retry.delays (Retry.callWithRetry fn random maxRetries)) i
    = Some d ->
    inject_Z (1500 * 2 ^ Z.of_nat i) <= d
    /\ d <= inject_Z (1500 * 2 ^ Z.of_nat i + 1000).
Proof.
  intros V fn random n i d Hr Hd. unfold Retry.callWithRetry in Hd.
  destruct (@loop_delays V fn random n 0%nat None) as [m Hm]. rewrite Hm in Hd.
  rewrite nth_error_map in Hd.
  destruct (nth_error (seq 0 m) i) as [j|] eqn:Ej; [|discriminate].
  assert (Hj : j = i).
  { assert (Hlt : (i < length (seq 0 m))%nat)
      by (apply nth_error_Some; congruence).
    rewrite length_seq in Hlt.
    rewrite (nth_error_nth' _ 0%nat) in Ej by (now rewrite length_seq).
    rewrite seq_nth in Ej by assumption. inversion Ej. lia. }
  subst j. simpl in Hd. inversion Hd; subst d. clear Hd.
  unfold Retry.delayAt. destruct (Hr i) as [H0 H1].
  rewrite !inject_Z_plus, !inject_Z_mult.
  change (inject_Z 1500) with 1500. change (inject_Z 1000) with 1000.
  split; lra.
Qed.

Lemma callWithRetry_backoff_witness :
  inject_Z (1500 * 2 ^ Z.of_nat 1) <= Retry.delayAt halfRandom 1
  /\ Retry.delayAt halfRandom 1 <= inject_Z (1500 * 2 ^ Z.of_nat 1 + 1000).
Proof.
  apply (@callWithRetry_backoff nat flakyCall halfRandom 3 1
           (Retry.delayAt halfRandom 1)).
  - intro j. split; discriminate || reflexivity.
  - reflexivity.
Defined.

(* ================================================================== *)
(** * The asset list *)

Section AssetFacts.

Import Assets.

Lemma digits_inj : forall d d', digits d = digits d' -> d = d'.
Proof.
  induction d as [|d IH|d IH|d IH|d IH|d IH|d IH|d IH|d IH|d IH|d IH];
    intros [|d'|d'|d'|d'|d'|d'|d'|d'|d'|d'] H; simpl in H;
    try discriminate; try reflexivity;
    inversion H as [H']; f_equal; now apply IH.
Qed.

Lemma imageName_inj : forall i j, imageName i = imageName j -> i = j.
Proof.
  intros i j H. unfold imageName in H.
  apply app_inv_head in H. apply app_inv_tail in H.
  unfold decimal in H. apply digits_inj in H.
  apply DecimalNat.Unsigned.to_uint_inj in H. lia.
Qed.

Lemma imageName_head : forall i, exists r, imageName i = 105%N :: r.
Proof. intro i. unfold imageName. simpl. eauto. Qed.

Lemma track_names_not_image : forall i,
  lit "narration.wav" <> imageName i /\ lit "uploaded_bgm.mp3" <> imageName i.
Proof.
  intro i. destruct (imageName_head i) as [r ->]. split; discriminate.
Qed.

Lemma str_eqb_eq : forall a b, str_eqb a b = true <-> a = b.
Proof.
  induction a as [|x a IH]; intros [|y b]; simpl; split; intro H;
    try discriminate; auto.
  - apply andb_prop in H. destruct H as [H1 H2].
    apply N.eqb_eq in H1. apply IH in H2. congruence.
  - inversion H; subst. rewrite N.eqb_refl. now apply IH.
Qed.

Lemma images_app : forall a b, images (a ++ b) = images a ++ images b.
Proof. intros. unfold images. apply filter_app. Qed.

Lemma images_without : forall t prev,
  t <> image ->
  images (filter (fun a => negb (AssetType_eqb (type a) t)) prev)
  = images prev.
Proof.
  intros t prev Ht. unfold images.
  induction prev as [|a l IH]; auto. simpl.
  destruct (type a) eqn:Ea, t; simpl; try congruence;
    rewrite ?Ea; simpl; now rewrite IH.
Qed.

Lemma filter_twice_none : forall t prev,
  filter (fun a => AssetType_eqb (type a) t)
         (filter (fun a => negb (AssetType_eqb (type a) t)) prev) = [].
Proof.
  intros t prev. induction prev as [|a l IH]; auto. simpl.
  destruct (AssetType_eqb (type a) t) eqn:E; simpl; auto.
  now rewrite E.
Qed.

Lemma filter_twice_same : forall t prev,
  filter (fun a => negb (AssetType_eqb (type a) t))
         (filter (fun a => negb (AssetType_eqb (type a) t)) prev)
  = filter (fun a => negb (AssetType_eqb (type a) t)) prev.
Proof.
  intros t prev. induction prev as [|a l IH]; auto. simpl.
  destruct (AssetType_eqb (type a) t) eqn:E; simpl; auto.
  rewrite E. simpl. now rewrite IH.
Qed.

Lemma findIndex_Some : forall (A : Type) (p : A -> bool) l idx,
  findIndex p l = Some idx ->
  exists a, nth_error l idx = Some a /\ p a = true.
Proof.
  induction l as [|x l IH]; intros idx H; [discriminate|]. simpl in H.
  destruct (p x) eqn:E.
  - inversion H; subst. exists x. auto.
  - destruct (findIndex p l) as [k|] eqn:Ek; [|discriminate].
    inversion H; subst. simpl. now apply IH.
Qed.

Lemma findIndex_None : forall (A : Type) (p : A -> bool) l,
  findIndex p l = None -> forall x, In x l -> p x = false.
Proof.
  induction l as [|y l IH]; intros H x Hx; [contradiction|]. simpl in H.
  destruct (p y) eqn:E; [discriminate|].
  destruct (findIndex p l) eqn:Ek; [discriminate|].
  destruct Hx as [<-|Hx]; auto.
Qed.

Lemma set_nth_length : forall (A : Type) (l : list A) i x,
  length (Capture.set_nth i x l) = length l.
Proof.
  induction l as [|y l IH]; intros i x; [now destruct i|].
  destruct i; simpl; auto.
Qed.

Lemma set_nth_same : forall (A : Type) (l : list A) i x a,
  nth_error l i = Some a -> nth_error (Capture.set_nth i x l) i = Some x.
Proof.
  induction l as [|y l IH]; intros i x a H; [destruct i; discriminate|].
  destruct i; simpl in *; eauto.
Qed.

Lemma set_nth_other : forall (A : Type) (l : list A) i j x,
  i <> j -> nth_error (Capture.set_nth i x l) j = nth_error l j.
Proof.
  induction l as [|y l IH]; intros i j x H; [now destruct i|].
  destruct i, j; simpl; auto; congruence.
Qed.

Lemma set_nth_map : forall (A B : Type) (f : A -> B) (l : list A) i x a,
  nth_error l i = Some a -> f x = f a ->
  map f (Capture.set_nth i x l) = map f l.
Proof.
  induction l as [|y l IH]; intros i x a H E; [destruct i; discriminate|].
  destruct i; simpl in *.
  - inversion H; subst. now rewrite E.
  - f_equal. eauto.
Qed.

Lemma set_nth_Forall : forall (A : Type) (P : A -> Prop) (l : list A) i x,
  Forall P l -> P x -> Forall P (Capture.set_nth i x l).
Proof.
  induction l as [|y l IH]; intros i x Hl Hx; [now destruct i|].
  inversion Hl; subst. destruct i; simpl; constructor; auto.
Qed.

Lemma images_by_tags : forall l l',
  map (fun a => (type a, name a)) l = map (fun a => (type a, name a)) l' ->
  map name (images l) = map name (images l').
Proof.
  unfold images. induction l as [|a l IH]; intros [|a' l'] H;
    try discriminate; auto.
  simpl in H. inversion H as [[Ht Hn Hr]]. simpl. rewrite Ht.
  destruct (AssetType_eqb (type a') image); simpl; [rewrite Hn; f_equal|];
    now apply IH.
Qed.

Lemma pushImages_all : forall parts i g,
  Forall (fun p : option (jsstring * nat) => p <> None) parts ->
  exists imgs,
    pushImages i parts g = g ++ imgs
    /\ Forall (fun a => type a = image) imgs
    /\ map name imgs = map imageName (seq i (length parts)).
Proof.
  induction parts as [|p parts IH]; intros i g H.
  - exists []. simpl. now rewrite app_nil_r.
  - inversion H as [|? ? Hp Hps]; subst.
    destruct p as [[url b]|]; [|congruence]. simpl.
    destruct (IH (S i) (g ++ [mkAsset image (imageName i) url (Some b)]) Hps)
      as [imgs [E [F N]]].
    exists (mkAsset image (imageName i) url (Some b) :: imgs).
    rewrite E, <- app_assoc. simpl. repeat split; auto.
    now rewrite N.
Qed.

Lemma findIndex_first : forall (A : Type) (p : A -> bool) l idx,
  findIndex p l = Some idx ->
  forall j x, (j < idx)%nat -> nth_error l j = Some x -> p x = false.
Proof.
  induction l as [|y l IH]; intros idx H j x Hj Hx; [discriminate|].
  simpl in H. destruct (p y) eqn:E.
  - inversion H; subst. lia.
  - destruct (findIndex p l) as [k|] eqn:Ek; [|discriminate].
    inversion H; subst. destruct j as [|j]; simpl in Hx.
    + inversion Hx; subst. exact E.
    + eapply IH; eauto. lia.
Qed.

Lemma last_opt_snoc : forall (A : Type) (l : list A) x,
  last_opt (l ++ [x]) = Some x.
Proof. intros A l x. unfold last_opt. now rewrite rev_app_distr. Qed.

Lemma images_all : forall imgs,
  Forall (fun a => type a = image) imgs -> images imgs = imgs.
Proof.
  unfold images. induction imgs as [|a l IH]; intro H; auto.
  inversion H as [|? ? Ha Hl]; subst. simpl. rewrite Ha. simpl.
  now rewrite IH.
Qed.

End AssetFacts.

Section AssetProperties.

Import Assets.

(** X6.  Uploading a background track, like regenerating the narration,
    puts the new asset at the end of the list, where it is the only asset
    of its type, and keeps every other asset, in the same order: the image
    sequence that [render] indexes is untouched. *)
Theorem single_track_replaced :
  forall (url : jsstring) (b : nat) (prev : list AssetData),
    (let next := handleBgmUpload url b prev in
     let item := mkAsset bgm (lit "uploaded_bgm.mp3") url (Some b) in
     last_opt next = Some item
     /\ filter (fun a => AssetType_eqb (type a) bgm) next = [item]
     /\ filter (fun a => negb (AssetType_eqb (type a) bgm)) next
        = filter (fun a => negb (AssetType_eqb (type a) bgm)) prev
     /\ (exists kept, next = kept ++ [item]
                      /\ Forall (fun a => type a <> bgm) kept)
     /\ images next = images prev)
    /\ (let next := regenerateAudio url b prev in
        let item := mkAsset audio (lit "narration.wav") url (Some b) in
        last_opt next = Some item
        /\ filter (fun a => AssetType_eqb (type a) audio) next = [item]
        /\ filter (fun a => negb (AssetType_eqb (type a) audio)) next
           = filter (fun a => negb (AssetType_eqb (type a) audio)) prev
        /\ (exists kept, next = kept ++ [item]
                         /\ Forall (fun a => type a <> audio) kept)
        /\ images next = images prev).
Proof.
  intros url b prev. unfold handleBgmUpload, regenerateAudio.
  assert (Hkept : forall t,
            Forall (fun a => type a <> t)
                   (filter (fun a => negb (AssetType_eqb (type a) t)) prev)).
  { intro t. apply Forall_forall. intros a Ha. apply filter_In in Ha.
    destruct Ha as [_ Ha]. intro E. rewrite E in Ha. now destruct t. }
  split; cbv zeta; (split; [apply last_opt_snoc|]);
    rewrite !filter_app, filter_twice_none, filter_twice_same,
      images_app, images_without by discriminate; simpl;
    rewrite !app_nil_r; repeat split; eauto.
Qed.

(** X7.  Regenerating image [index] replaces, in place, the first asset
    named [image_<index+1>.png] (no asset before it has that name): the list
    keeps its length and its names and every other position is unchanged.
    When no asset has that name the new image is appended at the end of the
    list. *)
Theorem regenerateSingleImage_in_place :
  forall (index : nat) (url : jsstring) (b : nat) (prev : list AssetData),
    let item := mkAsset image (imageName index) url (Some b) in
    let next := regenerateSingleImage index url b prev in
    (In (imageName index) (map name prev) ->
       length next = length prev
       /\ map name next = map name prev
       /\ exists idx old,
            nth_error prev idx = Some old /\ name old = imageName index
            /\ (forall j x, (j < idx)%nat -> nth_error prev j = Some x ->
                            name x <> imageName index)
            /\ nth_error next idx = Some item
            /\ forall j, j <> idx -> nth_error next j = nth_error prev j)
    /\ (~ In (imageName index) (map name prev) -> next = prev ++ [item]).
Proof.
  intros index url b prev item next. subst next. unfold regenerateSingleImage.
  fold item.
  destruct (findIndex (fun a => str_eqb (name a) (imageName index)) prev)
    as [idx|] eqn:E.
  - destruct (findIndex_Some _ _ E) as [old [Hn Ho]].
    apply str_eqb_eq in Ho. split.
    + intros _. split; [apply set_nth_length|]. split.
      * eapply set_nth_map; eauto.
      * exists idx, old. split; [exact Hn|]. split; [exact Ho|].
        split; [|split].
        -- intros j x Hj Hx Hname.
           pose proof (findIndex_first _ _ E Hj Hx) as Hf. simpl in Hf.
           apply str_eqb_eq in Hname. congruence.
        -- eapply set_nth_same; eauto.
        -- intros j Hj. apply set_nth_other. congruence.
    + intro Hno. exfalso. apply Hno. apply nth_error_In in Hn.
      rewrite <- Ho. now apply in_map.
  - split; [|reflexivity].
    intro Hin. exfalso. apply in_map_iff in Hin. destruct Hin as [a [Ha Hin]].
    pose proof (findIndex_None _ _ E a Hin) as Hf. simpl in Hf.
    apply str_eqb_eq in Ha. congruence.
Qed.

Lemma regenerateSingleImage_in_place_witness :
  length (regenerateSingleImage 1 (lit "blob:9") 9 sampleAssets)
  = length sampleAssets
  /\ map name (regenerateSingleImage 1 (lit "blob:9") 9 sampleAssets)
     = map name sampleAssets.
Proof.
  destruct (regenerateSingleImage_in_place 1 (lit "blob:9") 9 sampleAssets)
    as [H _].
  destruct H as [H1 [H2 _]].
  - vm_compute. right. left. reflexivity.
  - split; [exact H1 | exact H2].
Defined.

(** X8.  Distinct prompt indices have distinct image file names, and no
    image file name is the name of the narration or of the uploaded
    background track: regenerating one image can never land on another
    image or on an audio asset. *)
Theorem imageName_distinct :
  forall i j : nat,
    (imageName i = imageName j -> i = j)
    /\ imageName i <> lit "narration.wav"
    /\ imageName i <> lit "uploaded_bgm.mp3".
Proof.
  intros i j. split; [apply imageName_inj|].
  destruct (track_names_not_image i) as [A B]. split; congruence.
Qed.

Lemma imageName_distinct_witness : 10%nat = 10%nat.
Proof.
  apply (proj1 (imageName_distinct 10 10)). reflexivity.
Defined.

(** X9.  When every prompt of [startAssetGeneration] yields an image, the
    generated list holds one image per prompt and is aligned: the [k]-th
    image asset is [image_<k+1>.png], so [images[k]] of [render] is the
    image of prompt [k], whether or not narration audio was produced. *)
Theorem generatedAssets_aligned :
  forall (parts : list (option (jsstring * nat)))
         (audioData : option (jsstring * nat)),
    Forall (fun p => p <> None) parts ->
    aligned (generatedAssets parts audioData)
    /\ length (images (generatedAssets parts audioData)) = length parts.
Proof.
  intros parts audioData H. unfold generatedAssets.
  destruct (pushImages_all 0 [] H) as [imgs [E [F N]]].
  rewrite E. cbn [app].
  assert (Himg : images (match audioData with
                         | Some (url, b) =>
                             imgs ++ [mkAsset audio (lit "narration.wav") url (Some b)]
                         | None => imgs
                         end) = imgs).
  { destruct audioData as [[url b]|].
    - rewrite images_app, images_all by assumption. simpl. apply app_nil_r.
    - now apply images_all. }
  assert (Hlen : length imgs = length parts).
  { rewrite <- (length_map name), N, length_map. apply length_seq. }
  unfold aligned. rewrite Himg, Hlen. repeat split; auto.
  assert (Fi : Forall (fun a => type a = image
                                \/ forall i, name a <> imageName i) imgs).
  { eapply Forall_impl; [|exact F]. intros a Ha. now left. }
  destruct audioData as [[url b]|]; auto.
  apply Forall_app. split; auto. constructor; [|constructor].
  right. intro i. simpl. apply track_names_not_image.
Qed.

Lemma generatedAssets_aligned_witness :
  aligned sampleAssets /\ length (images sampleAssets) = 3%nat.
Proof.
  apply generatedAssets_aligned. repeat constructor; discriminate.
Defined.

(** X10.  Alignment is kept by every later change of the asset list:
    uploading a background track, regenerating the narration, and
    regenerating image [index] for [index] up to the number of images (the
    image is replaced in place, or appended when it is the next one). *)
Theorem aligned_preserved :
  forall (prev : list AssetData) (url : jsstring) (b index : nat),
    aligned prev ->
    aligned (handleBgmUpload url b prev)
    /\ aligned (regenerateAudio url b prev)
    /\ ((index <= length (images prev))%nat ->
        aligned (regenerateSingleImage index url b prev)
        /\ length (images (regenerateSingleImage index url b prev))
           = Nat.max (length (images prev)) (index + 1)).
Proof.
  intros prev url b index [A1 A2].
  assert (I1 : images (handleBgmUpload url b prev) = images prev).
  { unfold handleBgmUpload.
    rewrite images_app, images_without by discriminate. apply app_nil_r. }
  assert (I2 : images (regenerateAudio url b prev) = images prev).
  { unfold regenerateAudio.
    rewrite images_app, images_without by discriminate. apply app_nil_r. }
  assert (Hsub : forall t,
            Forall (fun a => type a = image \/ forall i, name a <> imageName i)
                   (filter (fun a => negb (AssetType_eqb (type a) t)) prev)).
  { intro t. apply Forall_forall. intros a Ha. apply filter_In in Ha.
    rewrite Forall_forall in A2. now apply A2. }
  split; [|split].
  - split; [now rewrite I1|]. unfold handleBgmUpload.
    apply Forall_app. split; auto. constructor; [|constructor].
    right. intro i. simpl. apply track_names_not_image.
  - split; [now rewrite I2|]. unfold regenerateAudio.
    apply Forall_app. split; auto. constructor; [|constructor].
    right. intro i. simpl. apply track_names_not_image.
  - intro Hi. unfold regenerateSingleImage.
    set (item := mkAsset image (imageName index) url (Some b)).
    destruct (findIndex (fun a => str_eqb (name a) (imageName index)) prev)
      as [idx|] eqn:E.
    + destruct (findIndex_Some _ _ E) as [old [Hn Ho]].
      apply str_eqb_eq in Ho.
      assert (Hty : type old = image).
      { rewrite Forall_forall in A2.
        destruct (A2 old (nth_error_In _ _ Hn)) as [T|T]; auto.
        exfalso. now apply (T index). }
      assert (Htags : map (fun a => (type a, name a))
                          (Capture.set_nth idx item prev)
                      = map (fun a => (type a, name a)) prev).
      { eapply set_nth_map; eauto. simpl. now rewrite Hty, Ho. }
      pose proof (images_by_tags _ _ Htags) as Hnames.
      assert (Hlen : length (images (Capture.set_nth idx item prev))
                     = length (images prev)).
      { rewrite <- (length_map name), Hnames. apply length_map. }
      assert (Hidx : (index < length (images prev))%nat).
      { assert (Hin : In (imageName index) (map name (images prev))).
        { rewrite <- Ho. apply in_map. unfold images. apply filter_In.
          split; [eapply nth_error_In; eauto | now rewrite Hty]. }
        rewrite A1 in Hin. apply in_map_iff in Hin.
        destruct Hin as [k [Hk Hin]]. apply imageName_inj in Hk. subst k.
        apply in_seq in Hin. lia. }
      split; [split|].
      * now rewrite Hnames, Hlen.
      * apply set_nth_Forall; [assumption | now left].
      * rewrite Hlen. lia.
    + assert (Hidx : index = length (images prev)).
      { destruct (Nat.eq_dec index (length (images prev))) as [|Hne]; auto.
        exfalso.
        assert (Hin : In (imageName index) (map name (images prev))).
        { rewrite A1. apply in_map. apply in_seq. lia. }
        apply in_map_iff in Hin. destruct Hin as [a [Ha Hin]].
        unfold images in Hin. apply filter_In in Hin. destruct Hin as [Hin _].
        pose proof (findIndex_None _ _ E a Hin) as Hf. simpl in Hf.
        apply str_eqb_eq in Ha. congruence. }
      assert (Himg : images (prev ++ [item]) = images prev ++ [item])
        by (now rewrite images_app).
      unfold aligned. rewrite Himg, length_app. simpl length.
      split; [split|].
      * rewrite map_app, A1, Nat.add_1_r, seq_S, map_app. simpl.
        now rewrite Hidx.
      * apply Forall_app. split; [assumption|].
        apply Forall_cons; [now left | apply Forall_nil].
      * lia.
Qed.

Lemma aligned_preserved_witness :
  aligned (regenerateSingleImage 3 (lit "blob:9") 9 sampleAssets)
  /\ length (images (regenerateSingleImage 3 (lit "blob:9") 9 sampleAssets))
     = Nat.max (length (images sampleAssets)) (3 + 1).
Proof.
  assert (Ha : aligned sampleAssets).
  { split; [reflexivity|].
    do 3 (apply Forall_cons; [left; reflexivity|]).
    apply Forall_cons; [|apply Forall_nil].
    right. intro i. apply track_names_not_image. }
  apply (proj2 (proj2 (aligned_preserved (lit "blob:9") 9 3 Ha))).
  vm_compute. lia.
Defined.

End AssetProperties.

(* ================================================================== *)
(** * Compositor: word wrap *)

Section WrapFacts.

Variable measure : jsstring -> Q.
Variable maxWidth : Q.

Lemma splitSpace_nonempty : forall s, Wrap.splitSpace s <> [].
Proof.
  induction s as [|c r IH]; simpl; [discriminate|].
  destruct (c =? 32)%N; [discriminate|].
  destruct (Wrap.splitSpace r); discriminate.
Qed.

Lemma joinSpace_cons : forall x y r,
  joinSpace (x :: y :: r) = x ++ 32%N :: joinSpace (y :: r).
Proof. reflexivity. Qed.

Lemma joinSpace_push : forall c p ps,
  joinSpace ((c :: p) :: ps) = c :: joinSpace (p :: ps).
Proof. intros c p [|q ps]; reflexivity. Qed.


Lemma join_splitSpace : forall s, joinSpace (Wrap.splitSpace s) = s.
Proof.
  induction s as [|c r IH]; [reflexivity|]. cbn [Wrap.splitSpace].
  destruct (c =? 32)%N eqn:E.
  - apply N.eqb_eq in E. subst c.
    pose proof (splitSpace_nonempty r) as Hn.
    destruct (Wrap.splitSpace r) as [|p ps]; [congruence|].
    rewrite joinSpace_cons. cbn [app]. now rewrite IH.
  - pose proof (splitSpace_nonempty r) as Hn.
    destruct (Wrap.splitSpace r) as [|p ps]; [congruence|].
    rewrite joinSpace_push. f_equal. exact IH.
Qed.

Lemma wrapFrom_nonempty : forall words cur,
  Wrap.wrapFrom measure maxWidth cur words <> [].
Proof.
  induction words as [|w rest IH]; intro cur; simpl; [discriminate|].
  destruct (negb _); [apply IH | discriminate].
Qed.

Lemma join_wrapFrom : forall words cur,
  joinSpace (Wrap.wrapFrom measure maxWidth cur words) = joinSpace (cur :: words).
Proof.
  induction words as [|w rest IH]; intro cur; [reflexivity|].
  cbn [Wrap.wrapFrom].
  destruct (negb (Qle_bool maxWidth (measure (cur ++ [32%N] ++ w)))).
  - rewrite IH. rewrite joinSpace_cons. destruct rest as [|v rest].
    + reflexivity.
    + rewrite !joinSpace_cons, <- !app_assoc. reflexivity.
  - pose proof (wrapFrom_nonempty rest w) as Hn.
    destruct (Wrap.wrapFrom measure maxWidth w rest) as [|l ls] eqn:E;
      [congruence|].
    rewrite !joinSpace_cons, <- E, IH. reflexivity.
Qed.


End WrapFacts.

(** X11.  Wrapping loses nothing: the lines of a caption, joined by single
    spaces, are the caption text, whatever the font measures. *)
Theorem wrapLines_join :
  forall (measure : jsstring -> Q) (maxWidth : Q) (text : jsstring),
    joinSpace (Wrap.wrapLines measure maxWidth text) = text.
Proof.
  intros measure maxWidth text. unfold Wrap.wrapLines.
  pose proof (join_splitSpace text) as H.
  destruct (Wrap.splitSpace text) as [|w0 rest] eqn:E.
  - now apply splitSpace_nonempty in E.
  - now rewrite join_wrapFrom.
Qed.


(* ================================================================== *)
(** * More on the mapper *)

Lemma spans_tags : forall total d tagged acc,
  map (fun c => (section c, text c)) (spans total d acc tagged) = tagged.
Proof.
  induction tagged as [|[sec txt] tagged IH]; intro acc; simpl; auto.
  now rewrite IH.
Qed.

(** X13.  [getTimedCaptions] yields exactly one caption per chunk, in the
    order hook chunks, body chunks, outro chunks, each tagged with the
    section its chunk comes from and carrying the chunk as its text. *)
Theorem captions_follow_chunks :
  forall (script : ScriptContent) (duration : Q),
    exists caps,
      getTimedCaptions script duration = Some caps
      /\ map (fun c => (section c, text c)) caps = taggedChunks script
      /\ length caps
         = (length (splitText (hook script))
            + length (splitText (body script))
            + length (splitText (outro script)))%nat.
Proof.
  intros script duration.
  assert (Hlen : length (taggedChunks script)
                 = (length (splitText (hook script))
                    + length (splitText (body script))
                    + length (splitText (outro script)))%nat).
  { unfold taggedChunks. rewrite !length_app, !length_map. lia. }
  destruct (Z.eq_dec (totalCharsOf script) 0) as [E|E].
  - exists []. rewrite getTimedCaptions_zero by assumption.
    destruct (zero_chars_no_chunks script E) as [E1 [E2 E3]].
    unfold taggedChunks. rewrite E1, E2, E3. repeat split.
  - exists (spans (totalCharsOf script) duration 0 (taggedChunks script)).
    rewrite getTimedCaptions_spans by assumption.
    split; [reflexivity|]. split; [apply spans_tags|].
    rewrite <- Hlen, <- (length_map (fun c => (section c, text c))).
    now rewrite spans_tags.
Qed.

(* ================================================================== *)
(** * More on the segmenter *)

Lemma trimStart_length : forall s, (length (trimStart s) <= length s)%nat.
Proof.
  induction s as [|c r IH]; simpl; auto.
  destruct (is_space c); simpl; lia.
Qed.

Lemma trimEnd_length : forall s, (length (trimEnd s) <= length s)%nat.
Proof.
  induction s as [|c r IH]; simpl; auto.
  destruct (trimEnd r); [destruct (is_space c)|]; simpl in *; lia.
Qed.

Lemma trim_length : forall s, (length (trim s) <= length s)%nat.
Proof.
  intro s. unfold trim. pose proof (trimEnd_length (trimStart s)).
  pose proof (trimStart_length s). lia.
Qed.

Lemma accumulate_budget : forall (all parts : list jsstring) cur,
  incl parts all ->
  cur = [] \/ (length cur <= MAX_CHARS)%nat \/ In cur all ->
  Forall (fun b => (length b <= MAX_CHARS)%nat \/ In b all)
         (accumulate (fun b => b) cur parts).
Proof.
  intros all. induction parts as [|p ps IH]; intros cur Hincl Hcur; simpl.
  - destruct cur as [|c cur]; simpl; [constructor|].
    constructor; [|constructor].
    destruct Hcur as [H|H]; [discriminate | exact H].
  - assert (Hp : In p all) by (apply Hincl; now left).
    assert (Hps : incl ps all) by (intros x Hx; apply Hincl; now right).
    destruct (MAX_CHARS <? length (cur ++ p)) eqn:E1; simpl.
    + destruct cur as [|c cur]; simpl.
      * apply IH; auto.
      * constructor; [|apply IH; auto].
        destruct Hcur as [H|H]; [discriminate | exact H].
    + apply IH; auto. right. left. apply Nat.ltb_ge in E1. exact E1.
Qed.

(** X15.  The length budget: every chunk of [splitText] has at most
    [MAX_CHARS] code units, unless it is a single comma part of its sentence
    that is longer than [MAX_CHARS] by itself (trimmed). *)
Theorem chunk_length_budget :
  forall (txt c : jsstring),
    In c (splitText txt) ->
    (length c <= MAX_CHARS)%nat
    \/ exists s p,
         In s (sentences txt) /\ In p (commaParts s)
         /\ (MAX_CHARS < length p)%nat /\ c = trim p.
Proof.
  intros txt c H. unfold splitText in H. apply in_flat_map in H.
  destruct H as [s [Hs Hc]]. unfold chunkSentence in Hc.
  destruct (length s <=? MAX_CHARS) eqn:E.
  - destruct Hc as [<-|[]]. left. now apply Nat.leb_le.
  - rewrite accumulate_post in Hc. apply in_map_iff in Hc.
    destruct Hc as [b [<- Hb]].
    pose proof (@accumulate_budget (commaParts s) (commaParts s) []
                  (incl_refl _) (or_introl eq_refl)) as Hall.
    rewrite Forall_forall in Hall. destruct (Hall b Hb) as [Hle|Hin].
    + left. pose proof (trim_length b). lia.
    + destruct (Nat.le_gt_cases (length b) MAX_CHARS) as [Hle|Hgt].
      * left. pose proof (trim_length b). lia.
      * right. exists s, b. auto.
Qed.

Lemma chunk_length_budget_witness :
  (length (lit "Second, try odeng soup.") <= MAX_CHARS)%nat
  \/ exists s p,
       In s (sentences (body sampleScript)) /\ In p (commaParts s)
       /\ (MAX_CHARS < length p)%nat
       /\ lit "Second, try odeng soup." = trim p.
Proof.
  apply chunk_length_budget. vm_compute. right. left. reflexivity.
Defined.

Lemma trimEnd_keeps_last : forall pre c,
  is_space c = false -> trimEnd (pre ++ [c]) = pre ++ [c].
Proof.
  induction pre as [|x pre IH]; intros c Hc; simpl.
  - now rewrite Hc.
  - rewrite IH by assumption. destruct (pre ++ [c]) eqn:E; auto.
    apply app_eq_nil in E. destruct E; discriminate.
Qed.

Lemma trimStart_keeps_last : forall pre c,
  is_space c = false -> exists pre', trimStart (pre ++ [c]) = pre' ++ [c].
Proof.
  induction pre as [|x pre IH]; intros c Hc; simpl.
  - rewrite Hc. now exists [].
  - destruct (is_space x); [now apply IH|]. now exists (x :: pre).
Qed.

Lemma ends_with_term_last : forall s,
  ends_with_term s = true -> exists pre c, s = pre ++ [c] /\ is_term c = true.
Proof.
  intros s H. unfold ends_with_term in H.
  destruct (rev s) as [|c r] eqn:E; [discriminate|].
  exists (rev r), c. split; auto.
  rewrite <- (rev_involutive s), E. reflexivity.
Qed.

(** X16.  Every sentence that [splitText] works on ends with a terminator:
    a piece that ends with [. ! ?] keeps its ending, any other piece gets a
    period appended; and a sentence of at most [MAX_CHARS] code units is a
    chunk as it stands. *)
Theorem sentences_terminated :
  forall (txt s : jsstring),
    In s (sentences txt) ->
    ends_with_term s = true
    /\ ((length s <= MAX_CHARS)%nat -> In s (splitText txt)).
Proof.
  intros txt s H. split.
  - unfold sentences in H. apply in_map_iff in H. destruct H as [p [<- _]].
    destruct (ends_with_term p) eqn:E.
    + rewrite app_nil_r.
      destruct (ends_with_term_last p E) as [pre [c [-> Hc]]].
      pose proof (is_term_not_space c Hc) as Hs.
      destruct (@trimStart_keeps_last pre c Hs) as [pre' E'].
      unfold trim. rewrite E', trimEnd_keeps_last by assumption.
      unfold ends_with_term. rewrite rev_app_distr. exact Hc.
    + unfold ends_with_term. rewrite rev_app_distr. reflexivity.
  - intro Hlen. unfold splitText. apply in_flat_map. exists s. split; auto.
    unfold chunkSentence. apply Nat.leb_le in Hlen. rewrite Hlen. now left.
Qed.

Lemma sentences_terminated_witness :
  ends_with_term (lit "Try hotteok.") = true
  /\ ((length (lit "Try hotteok.") <= MAX_CHARS)%nat ->
      In (lit "Try hotteok.") (splitText (hook questionScript))).
Proof.
  apply sentences_terminated. vm_compute. right. left. reflexivity.
Defined.

Lemma blank_sentences : forall txt, blank txt -> sentences txt = [].
Proof.
  intros txt H. unfold sentences, split.
  pose proof (blank_split false H) as Hall.
  induction (split_go is_term false false txt) as [|p ps IH]; auto.
  inversion Hall as [|? ? Hp Hps]; subst. cbn [filter].
  replace (trim p) with (@nil char16)
    by (unfold trim; now rewrite blank_trim).
  cbn [length Nat.ltb Nat.leb]. now apply IH.
Qed.

(** X17.  An empty or white-space-only text has no sentence and yields no
    chunk, so a script made of such sections has no caption. *)
Theorem splitText_blank :
  forall txt : jsstring,
    blank txt -> sentences txt = [] /\ splitText txt = [].
Proof.
  intros txt H. pose proof (blank_sentences H) as E. split; auto.
  unfold splitText. now rewrite E.
Qed.

Lemma splitText_blank_witness :
  sentences (hook blankScript) = [] /\ splitText (hook blankScript) = [].
Proof. apply splitText_blank. reflexivity. Defined.

(* ================================================================== *)
(** * More on the scene selector *)

Lemma find_all_false : forall (A : Type) (p : A -> bool) l,
  (forall x, In x l -> p x = false) -> find p l = None.
Proof.
  induction l as [|y l IH]; intro H; auto. simpl.
  rewrite (H y (or_introl eq_refl)). apply IH. intros x Hx. apply H. now right.
Qed.

Lemma body_branch_prog_nonneg : forall tl d t,
  valid_timeline d tl -> 0 <= t -> in_body_branch tl t -> 0 <= prog tl d t.
Proof.
  intros tl d t Hv Ht Hb.
  pose proof (valid_body_bounds_distinct Hv) as Hlt.
  destruct Hv as [Hd [->|C]].
  - apply prog_nonneg; unfold bodyS, bodyE; simpl; lra.
  - unfold in_body_branch in Hb.
    destruct (selectCaption tl t) as [c|] eqn:E.
    + cbn [option_map] in Hb. destruct (section c) eqn:Es; try contradiction.
      assert (In c tl /\ startTime c <= t) as [Hin Hst]
        by (eapply selectCaption_bounds; eauto).
      assert (Hbody : is_body c = true) by (unfold is_body; now rewrite Es).
      assert (bodyS tl <= startTime c /\ bodyS tl < bodyE tl d) as [B1 B2]
        by (eapply body_bounds; eauto).
      apply prog_nonneg; lra.
    + unfold selectCaption in E. destruct (find _ tl); [discriminate|].
      unfold last_opt in E. destruct (rev tl) eqn:Er; [|discriminate].
      apply (f_equal (@rev _)) in Er. rewrite rev_involutive in Er. subst tl.
      apply prog_nonneg; unfold bodyS, bodyE; simpl; lra.
Qed.

(** X18.  On a timeline that partitions [[0, duration]], the caption
    selected for a time before the end is a caption of the timeline whose
    interval holds the time; from the end on (the clock drifting past the
    measured duration) it is the last caption, never nothing. *)
Theorem selectCaption_interval :
  forall (tl : list TimedCaption) (duration time : Q),
    chained 0 tl duration -> tl <> [] -> 0 <= time ->
    (time < duration ->
       exists c, selectCaption tl time = Some c /\ In c tl
                 /\ startTime c <= time /\ time < endTime c)
    /\ (duration <= time ->
          exists c, selectCaption tl time = Some c
                    /\ last_opt tl = Some c /\ endTime c == duration).
Proof.
  intros tl d t C Hne Ht. split.
  - intro Hlt. unfold selectCaption.
    destruct (find (fun s => Qle_bool (startTime s) t
                             && negb (Qle_bool (endTime s) t)) tl)
      as [c|] eqn:E.
    + exists c. apply find_some in E. destruct E as [Hin Hp].
      apply andb_prop in Hp. destruct Hp as [H1 H2].
      apply Qle_bool_iff in H1. apply negb_true_iff in H2.
      repeat split; auto. apply Qnot_le_lt. intro H.
      apply Qle_bool_iff in H. congruence.
    + exfalso. assert (d <= t) by (eapply chained_find; eauto). lra.
  - intro Hge. unfold selectCaption.
    rewrite find_all_false.
    + destruct (last_opt tl) as [c|] eqn:El.
      * exists c. repeat split; auto. eapply chained_last; eauto.
      * exfalso. unfold last_opt in El. destruct (rev tl) eqn:Er; [|discriminate].
        apply (f_equal (@rev _)) in Er. rewrite rev_involutive in Er. auto.
    + intros x Hx.
      assert (0 <= startTime x /\ startTime x < endTime x /\ endTime x <= d)
        as [_ [_ He]] by (eapply chained_In; eauto).
      assert (Hle : Qle_bool (endTime x) t = true)
        by (apply Qle_bool_iff; lra).
      rewrite Hle. apply andb_false_r.
Qed.

Lemma selectCaption_interval_witness :
  (11 # 2 < 12 ->
     exists c, selectCaption sampleTimeline (11 # 2) = Some c
               /\ In c sampleTimeline
               /\ startTime c <= 11 # 2 /\ 11 # 2 < endTime c)
  /\ (12 <= 11 # 2 ->
        exists c, selectCaption sampleTimeline (11 # 2) = Some c
                  /\ last_opt sampleTimeline = Some c /\ endTime c == 12).
Proof.
  apply selectCaption_interval.
  - simpl. repeat split; reflexivity.
  - discriminate.
  - discriminate.
Defined.

(** X19.  With three images or more the first and the last image are kept
    for the hook and the outro: on a valid timeline and a time in
    [[0, duration]] a hook caption selects image 0, an outro caption the
    last image, and the body branch an interior image, from 1 to
    [imagesLength - 2]. *)
Theorem image_roles_reserved :
  forall (tl : list TimedCaption) (duration time : Q) (imagesLength : Z),
    valid_timeline duration tl -> 0 <= time -> (3 <= imagesLength)%Z ->
    match option_map section (selectCaption tl time) with
    | Some Hook => selectImageIndex tl duration time imagesLength = 0%Z
    | Some Outro =>
        selectImageIndex tl duration time imagesLength = (imagesLength - 1)%Z
    | _ => (1 <= selectImageIndex tl duration time imagesLength
              <= imagesLength - 2)%Z
    end.
Proof.
  intros tl d t n Hv Ht Hn.
  pose proof (@body_branch_prog_nonneg tl d t Hv Ht) as Hp.
  unfold selectImageIndex, in_body_branch in *.
  destruct (option_map section (selectCaption tl t)) as [[| |]|];
    try reflexivity.
  - specialize (Hp I).
    assert (H : (0 <= Qfloor (prog tl d t * inject_Z (n - 2)))%Z).
    { change 0%Z with (Qfloor 0). apply Qfloor_resp_le.
      apply Qmult_le_0_compat; auto.
      change 0 with (inject_Z 0). rewrite <- Zle_Qle. lia. }
    lia.
  - specialize (Hp I).
    assert (H : (0 <= Qfloor (prog tl d t * inject_Z (n - 2)))%Z).
    { change 0%Z with (Qfloor 0). apply Qfloor_resp_le.
      apply Qmult_le_0_compat; auto.
      change 0 with (inject_Z 0). rewrite <- Zle_Qle. lia. }
    lia.
Qed.

Lemma image_roles_reserved_witness :
  (1 <= selectImageIndex sampleTimeline 12 (11 # 2) 5 <= 5 - 2)%Z.
Proof.
  refine (@image_roles_reserved sampleTimeline 12 (11 # 2) 5 _ _ _).
  - split; [reflexivity|]. right. simpl. repeat split; reflexivity.
  - discriminate.
  - lia.
Defined.

(** X20.  Within the body branch the image index never goes back as time
    advances: for two times [time <= time'] that both fall in the body
    branch of a valid timeline, the index at [time] is at most the index at
    [time']. *)
Theorem image_index_monotone :
  forall (tl : list TimedCaption) (duration time time' : Q) (imagesLength : Z),
    valid_timeline duration tl ->
    time <= time' ->
    in_body_branch tl time -> in_body_branch tl time' ->
    (2 <= imagesLength)%Z ->
    (selectImageIndex tl duration time imagesLength
     <= selectImageIndex tl duration time' imagesLength)%Z.
Proof.
  intros tl d t t' n Hv Htt Hb Hb' Hn.
  pose proof (valid_body_bounds_distinct Hv) as Hlt.
  unfold selectImageIndex, in_body_branch in *.
  destruct (option_map section (selectCaption tl t)) as [[| |]|];
    try contradiction;
    destruct (option_map section (selectCaption tl t')) as [[| |]|];
    try contradiction.
  all: assert (Hd : 0 < num_or (Some (bodyE tl d - bodyS tl)) 1)
         by (apply num_or_one_pos; lra).
  all: assert (Hp : prog tl d t <= prog tl d t')
         by (unfold prog, Qdiv; apply Qmult_le_compat_r;
             [lra | apply Qlt_le_weak, Qinv_lt_0_compat, Hd]).
  all: assert (Hf : (Qfloor (prog tl d t * inject_Z (n - 2))
                     <= Qfloor (prog tl d t' * inject_Z (n - 2)))%Z)
         by (apply Qfloor_resp_le, Qmult_le_compat_r; auto;
             change 0 with (inject_Z 0); rewrite <- Zle_Qle; lia).
  all: lia.
Qed.

Lemma image_index_monotone_witness :
  (selectImageIndex sampleTimeline 12 3 5
   <= selectImageIndex sampleTimeline 12 8 5)%Z.
Proof.
  apply image_index_monotone.
  - split; [reflexivity|]. right. simpl. repeat split; reflexivity.
  - discriminate.
  - exact I.
  - exact I.
  - lia.
Defined.

(* ================================================================== *)
(** * More on the capture pipeline *)

Lemma set_nth_nth_other : forall (A : Type) (l : list A) i j x d,
  i <> j -> nth j (set_nth i x l) d = nth j l d.
Proof.
  induction l as [|y l IH]; intros i j x d H; [now destruct i|].
  destruct i, j; simpl; auto; congruence.
Qed.

Lemma recording_in_range : forall w r,
  recorderState w r = Recording -> (r < length (recorders w))%nat.
Proof.
  intros w r H. unfold recorderState in H.
  destruct (Nat.lt_ge_cases r (length (recorders w))) as [|Hge]; auto.
  rewrite nth_overflow in H by assumption. discriminate.
Qed.

Lemma toggle_keeps_recorders : forall w b,
  recorders (commit (run [SetIsPlaying b] (w, noPending))) = recorders w.
Proof. intros [ex pl cv au rs ts se] b. reflexivity. Qed.

(** X21.  A recorder that records is stopped by nothing but the ['ended']
    event of the narration or its own timeout: an export request, a
    play/pause click, another recorder's timeout and the delivery of a
    ['stop'] event all leave it recording.  In particular pausing playback
    during an export does not end the capture. *)
Theorem recorder_stopped_only_by :
  forall (w : World) (e : Event) (r : nat),
    recorderState w r = Recording ->
    recorderState (handle e w) r = Recording
    \/ e = AudioEnded \/ e = TimerFires r.
Proof.
  intros w e r H. pose proof (recording_in_range w r H) as Hr.
  destruct e as [| | |r'|r'].
  - left. destruct (negb (canvas w) || isExporting w) eqn:G.
    + destruct (export_rejected w G) as [_ E]. now rewrite E.
    + apply orb_false_elim in G. destruct G as [Gc Ge].
      apply negb_false_iff in Gc.
      destruct (export_accepted w Gc Ge) as [_ [A2 _]].
      unfold recorderState in *. rewrite A2, app_nth1 by assumption. exact H.
  - left. unfold handle. destruct (canvas w); [|exact H].
    unfold recorderState, handleTogglePlay in *.
    now rewrite toggle_keeps_recorders.
  - right. now left.
  - destruct (Nat.eq_dec r' r) as [->|Hne]; [right; now right|].
    left. unfold handle. destruct (mem_nat r' (timers w)); auto.
    destruct w as [ex pl cv au rs ts se]. unfold recorderState in *.
    cbn [run fold_left exec recorders isExporting isPlaying canvas audio
         timers stopEvents] in *.
    unfold recorderState. cbn [recorders].
    destruct (nth r' rs Inactive); cbn; [exact H|].
    now rewrite set_nth_nth_other.
  - left. unfold handle. destruct (mem_nat r' (stopEvents w)); exact H.
Qed.

Lemma recorder_stopped_only_by_witness :
  recorderState (handle ClickTogglePlay (handle ClickExport pausedWorld)) 0
  = Recording.
Proof.
  destruct (@recorder_stopped_only_by (handle ClickExport pausedWorld)
              ClickTogglePlay 0%nat eq_refl) as [H|[H|H]].
  - exact H.
  - discriminate H.
  - discriminate H.
Defined.

(** X22.  A whole export: from a state with a canvas and an audio element
    in which nothing is being exported, the request, the end of the
    narration and the delivery of the ['stop'] event of the recorder lead
    to a state in which the recorder is inactive, nothing plays, nothing is
    being exported, no more recorders record than before, no timeout was
    set, and a new export request is accepted. *)
Theorem export_cycle :
  forall (w : World) (a : Audio),
    canvas w = true -> isExporting w = false -> audio w = Some a ->
    let r := length (recorders w) in
    let w3 := handle (RecorderStopped r)
                     (handle AudioEnded (handle ClickExport w)) in
    isExporting w3 = false /\ isPlaying w3 = false
    /\ recorderState w3 r = Inactive
    /\ active w3 = active w
    /\ timers w3 = timers w
    /\ exportVideo w3 <> [].
Proof.
  intros [ex pl cv au rs ts se] a Hc He Ha. simpl in Hc, He, Ha. subst.
  cbn [recorders].
  assert (E1 : handle ClickExport
                 (mkWorld false pl true (Some a) rs ts se)
               = mkWorld true true true
                   (Some (mkAudio 0 (if pl then paused a else false)
                                  (Some (length rs))))
                   (rs ++ [Recording]) ts se).
  { unfold handle, exportVideo. cbn. rewrite set_nth_fresh.
    destruct pl; reflexivity. }
  rewrite E1.
  assert (E2 : handle AudioEnded
                 (mkWorld true true true
                    (Some (mkAudio 0 (if pl then paused a else false)
                                   (Some (length rs))))
                    (rs ++ [Recording]) ts se)
               = mkWorld true false true
                   (Some (mkAudio 0 true None))
                   (rs ++ [Inactive]) ts (se ++ [length rs])).
  { unfold handle. cbn [audio onended app onendedHandler run fold_left].
    cbn [exec noPending nextExporting nextPlaying]. unfold recorderState.
    cbn [recorders]. rewrite nth_middle.
    cbn. now rewrite set_nth_fresh. }
  rewrite E2. unfold handle. cbn [stopEvents].
  assert (M : mem_nat (length rs) (se ++ [length rs]) = true).
  { unfold mem_nat. rewrite existsb_app. simpl.
    now rewrite Nat.eqb_refl, orb_true_r. }
  rewrite M. cbn. unfold recorderState, active, exportVideo. cbn.
  repeat split; try reflexivity.
  - apply nth_middle.
  - rewrite filter_app. simpl. now rewrite app_nil_r.
  - discriminate.
Qed.

Lemma export_cycle_witness :
  isExporting (handle (RecorderStopped 0)
                 (handle AudioEnded (handle ClickExport pausedWorld))) = false
  /\ exportVideo (handle (RecorderStopped 0)
                    (handle AudioEnded (handle ClickExport pausedWorld))) <> [].
Proof.
  destruct (@export_cycle pausedWorld _ eq_refl eq_refl eq_refl)
    as [H1 [_ [_ [_ [_ H2]]]]].
  split; [exact H1 | exact H2].
Defined.

(** X23.  The timeline that the render effect builds is always valid: with
    the measured duration of the audio element (absent, zero or [NaN] falls
    back to 10 seconds) [getTimedCaptions] returns captions that are empty
    or partition [[0, duration]], and the duration is positive. *)
Theorem render_timeline_valid :
  forall (script : ScriptContent) (audioDuration : option Q),
    match audioDuration with Some q => 0 <= q | None => True end ->
    0 < effectiveDuration audioDuration
    /\ exists caps,
         getTimedCaptions script (effectiveDuration audioDuration) = Some caps
         /\ valid_timeline (effectiveDuration audioDuration) caps.
Proof.
  intros script audioDuration H.
  assert (Hd : 0 < effectiveDuration audioDuration).
  { unfold effectiveDuration, num_or. destruct audioDuration as [q|];
      [|reflexivity].
    destruct (Qeq_bool q 0) eqn:E; [reflexivity|].
    apply Qeq_bool_neq in E. apply Qle_lt_or_eq in H.
    destruct H as [H|H]; auto. exfalso. apply E. now symmetry. }
  split; auto.
  destruct (getTimedCaptions script (effectiveDuration audioDuration))
    as [caps|] eqn:E; [|now apply getTimedCaptions_total in E].
  exists caps. split; auto. eapply getTimedCaptions_valid; eauto.
Qed.

Lemma render_timeline_valid_witness :
  0 < effectiveDuration (Some 0)
  /\ exists caps,
       getTimedCaptions sampleScript (effectiveDuration (Some 0)) = Some caps
       /\ valid_timeline (effectiveDuration (Some 0)) caps.
Proof.
  apply (render_timeline_valid sampleScript (Some 0)). discriminate.
Defined.
